(** * pompom: the conditional-styling resolver of [packages/react/index.ts]

    A shallow embedding of [defineConfig], of the stylesheet generators and of
    the [style] / [processStyles] resolver, followed by the properties of the
    design specification that were checked against them.

    Modelling conventions (all of them follow the TypeScript source):
    - a JavaScript object is the list of its own enumerable string keys in
      [for ... in] order, each with its value; array-index keys come first in
      ascending numeric order, every other key in creation order;
    - [conditionIdMap], a module-level [Map<string, string>], is a
      [gmap string string] threaded through [defineConfig] and read by [style];
    - [console.warn] / [console.log] append to a list of diagnostics;
    - numbers are the integer-valued ones ([Z]), printed in decimal;
    - expander functions are total and pure;
    - the resolver is given twice: [style] reads [properties] and [pStyles] by
      their own properties, and [Js.style] follows the source through
      [Object.prototype] as well (inherited members found by [properties[key]]
      and [pStyles[k]], the setter of [__proto__], calls that throw). The two
      agree on every description whose written keys are not names of members
      of [Object.prototype] ([style_reads_own_properties]). *)

From Stdlib Require Import ZArith NArith List Ascii String Bool Lia.
From stdpp Require Import base gmap strings pretty list fin_maps.

Local Open Scope string_scope.
Local Open Scope list_scope.

(** ** Strings *)

Module Str.

(** The line feed used by [stylesheet.join('\n')]. *)
Definition newline : string := String (ascii_of_nat 10) EmptyString.

(** [s.startsWith(p)]. *)
Definition startsWith (p s : string) : bool := String.prefix p s.

Fixpoint drop (n : nat) (s : string) : string :=
  match n, s with
  | O, _ => s
  | S n', String _ s' => drop n' s'
  | S _, EmptyString => EmptyString
  end.

(** [s.replace(pat, rep)] for a string pattern: only the first occurrence of
    [pat] is replaced, and [s] is returned unchanged when there is none. *)
Fixpoint replace (pat rep s : string) : string :=
  if String.prefix pat s then rep +:+ drop (String.length pat) s
  else match s with
       | EmptyString => EmptyString
       | String c s' => String c (replace pat rep s')
       end.

(** [arr.join(sep)]. *)
Definition join (sep : string) (l : list string) : string := String.concat sep l.

(** Occurrence of a character in a string. *)
Fixpoint mem (c : ascii) (s : string) : bool :=
  match s with
  | EmptyString => false
  | String c' s' => Ascii.eqb c c' || mem c s'
  end.

(** Number of occurrences of a character in a string. *)
Fixpoint count (c : ascii) (s : string) : nat :=
  match s with
  | EmptyString => O
  | String c' s' => (if Ascii.eqb c c' then 1 else 0) + count c s'
  end.

End Str.

(** ** JavaScript values *)

(** The values a style description can hold. [VObj] is a plain object: its
    entries in enumeration order. *)
#[local] Unset Elimination Schemes.
Inductive value : Type :=
  | VUndefined
  | VNull
  | VBool (b : bool)
  | VNum (n : Z)
  | VStr (s : string)
  | VObj (entries : list (string * value)).
#[local] Set Elimination Schemes.

(** A plain object, as enumerated by [for ... in]. *)
Abbreviation obj := (list (string * value)).

(** [CSSProps]: the flat map returned by [style]. *)
Abbreviation CSSProps := (list (string * value)).

(** Induction on a value, with the hypothesis available for every property
    of an object. *)
Section ValueInd.
Variable P : value -> Prop.
Hypothesis Hundef : P VUndefined.
Hypothesis Hnull : P VNull.
Hypothesis Hbool : forall b, P (VBool b).
Hypothesis Hnum : forall n, P (VNum n).
Hypothesis Hstr : forall s, P (VStr s).
Hypothesis Hobj : forall es, Forall (fun kv => P (snd kv)) es -> P (VObj es).

Fixpoint value_ind (v : value) : P v :=
  match v with
  | VUndefined => Hundef
  | VNull => Hnull
  | VBool b => Hbool b
  | VNum n => Hnum n
  | VStr s => Hstr s
  | VObj es =>
      Hobj es
        ((fix all (l : list (string * value)) : Forall (fun kv => P (snd kv)) l :=
            match l with
            | [] => @List.Forall_nil _ _
            | kv :: l' => @List.Forall_cons _ _ kv l' (value_ind (snd kv)) (all l')
            end) es)
  end.
End ValueInd.

(** Truthiness ([ToBoolean]). *)
Definition truthy (v : value) : bool :=
  match v with
  | VUndefined | VNull => false
  | VBool b => b
  | VNum n => negb (n =? 0)%Z
  | VStr s => negb (String.eqb s "")
  | VObj _ => true
  end.

(** String conversion, as performed by a template literal. *)
Definition toString (v : value) : string :=
  match v with
  | VUndefined => "undefined"
  | VNull => "null"
  | VBool true => "true"
  | VBool false => "false"
  | VNum n => pretty n
  | VStr s => s
  | VObj _ => "[object Object]"
  end.

(** [typeof value === 'object' && value !== null]. *)
Definition isObject (v : value) : bool :=
  match v with VObj _ => true | _ => false end.

(** ** Objects as ordered property lists *)

Module Obj.

(** Reading the digits of a key as a number (characters that are not
    digits count as zero; [array_index] rejects such keys afterwards). *)
Definition digit (c : ascii) : N :=
  let n := N_of_ascii c in
  if ((48 <=? n) && (n <=? 57))%N then (n - 48)%N else 0%N.

Fixpoint parse_digits (acc : N) (s : string) : N :=
  match s with
  | EmptyString => acc
  | String c s' => parse_digits (acc * 10 + digit c)%N s'
  end.

(** A key is an array index when it is the canonical decimal form of an
    integer below [2^32 - 1]. *)
Definition array_index (k : string) : option N :=
  let n := parse_digits 0 k in
  if String.eqb (pretty n) k && (n <? 4294967295)%N then Some n else None.

(** [o[k]], with [None] for a missing property. *)
Fixpoint lookup (k : string) (o : obj) : option value :=
  match o with
  | [] => None
  | (k', v) :: o' => if String.eqb k k' then Some v else lookup k o'
  end.

(** [o[k]] as an expression: [undefined] for a missing property. *)
Definition get (k : string) (o : obj) : value :=
  match lookup k o with Some v => v | None => VUndefined end.

Definition has (k : string) (o : obj) : bool :=
  match lookup k o with Some _ => true | None => false end.

(** Overwriting an existing property keeps its place. *)
Fixpoint update (k : string) (v : value) (o : obj) : obj :=
  match o with
  | [] => []
  | (k', v') :: o' =>
      if String.eqb k k' then (k', v) :: o' else (k', v') :: update k v o'
  end.

(** A new array-index key is placed after the smaller indices. *)
Fixpoint insert_index (n : N) (k : string) (v : value) (o : obj) : obj :=
  match o with
  | [] => [(k, v)]
  | (k', v') :: o' =>
      match array_index k' with
      | Some m => if (m <? n)%N then (k', v') :: insert_index n k v o'
                  else (k, v) :: o
      | None => (k, v) :: o
      end
  end.

(** [o[k] = v]. *)
Definition set (k : string) (v : value) (o : obj) : obj :=
  if has k o then update k v o
  else match array_index k with
       | Some n => insert_index n k v o
       | None => o ++ [(k, v)]
       end.

Definition keys (o : obj) : list string := map fst o.

(** Enumeration order: [precedes k k'] when a distinct key [k'] may be
    enumerated after [k]. *)
Definition precedes (k k' : string) : bool :=
  match array_index k, array_index k' with
  | Some n, Some m => (n <? m)%N
  | Some _, None => true
  | None, Some _ => false
  | None, None => negb (String.eqb k k')
  end.

Fixpoint ordered (ks : list string) : bool :=
  match ks with
  | [] => true
  | k :: ks' => forallb (precedes k) ks' && ordered ks'
  end.

(** The representation invariant of an object: no key twice, array indices
    first and ascending. *)
Definition wf (o : obj) : bool := ordered (keys o).

(** [for (const k in src) dst[k] = src[k]]. *)
Definition assign (dst src : obj) : obj :=
  fold_left (fun acc kv => set (fst kv) (snd kv) acc) src dst.

End Obj.

(** ** Stylesheet fragments and fallback values *)

(** [getSelectorStylesheet]: the stylesheet required for a selector. *)
Definition getSelectorStylesheet (selector id : string) : string :=
  let s := Str.replace "&" "*" selector in
  "*{--" +:+ id +:+ "-0:initial;--" +:+ id +:+ "-1: ;} " +:+ s +:+
  "{--" +:+ id +:+ "-0: ;--" +:+ id +:+ "-1:initial;}".

(** [getBlockStylesheet]: the stylesheet required for a block
    ([@media], [@supports], ... query). *)
Definition getBlockStylesheet (block id : string) : string :=
  "*{--" +:+ id +:+ "-0:initial;--" +:+ id +:+ "-1: ;} " +:+ block +:+
  "{*{--" +:+ id +:+ "-0: ;--" +:+ id +:+ "-1:initial;}}".

(** [off || 'revert-layer']. *)
Definition orRevertLayer (off : value) : value :=
  if truthy off then off else VStr "revert-layer".

(** [getPropertyValue]: the CSS property for given [on], [varId] and [off]
    values. [off] is [VUndefined] when the caller has no value to pass. *)
Definition getPropertyValue (varId : string) (on off : value) : string :=
  "var(--" +:+ varId +:+ "-1," +:+ toString on +:+ ") var(--" +:+ varId +:+
  "-0," +:+ toString (orRevertLayer off) +:+ ")".

(** ** Configuration *)

(** An expander function of [properties]. *)
Abbreviation Expander := (value -> CSSProps).

Record ConfigOptions : Type := {
  conditions : option (list (string * string));
  properties : option (gmap string Expander);
  cssVariablePrefix : option string;
}.

(** What [console.warn] and [console.log] received. *)
Inductive diagnostic : Type :=
  | ConsoleWarn (msg : string)
  | ConsoleLog (msg : string) (received : value).

(** An element of [conditionsToProcess]. *)
Module Cond.
Record t : Type := { name : string; id : string; value : value }.
End Cond.

(** [options.cssVariablePrefix || 'p']. *)
Definition cssVarPrefix (options : ConfigOptions) : string :=
  match cssVariablePrefix options with
  | Some s => if String.eqb s "" then "p" else s
  | None => "p"
  end.

(** The mutable state of one [defineConfig] call: its local counter [idx],
    its local [stylesheet] array, and the module-level [conditionIdMap]. *)
Record ConfigState : Type := {
  idx : N;
  stylesheet : list string;
  conditionIdMap : gmap string string;
}.

(** [getId]: bump the counter, record the name, return the id. *)
Definition getId (prefix name : string) (st : ConfigState)
  : string * ConfigState :=
  let idx' := (idx st + 1)%N in
  let id := prefix +:+ pretty idx' in
  (id, {| idx := idx'; stylesheet := stylesheet st;
          conditionIdMap := <[name := id]> (conditionIdMap st) |}).

Definition push (line : string) (st : ConfigState) : ConfigState :=
  {| idx := idx st; stylesheet := stylesheet st ++ [line];
     conditionIdMap := conditionIdMap st |}.

(** One iteration of [for (const name in conditions)]. *)
Definition registerCondition (prefix : string) (st : ConfigState)
    (entry : string * string) : ConfigState :=
  let '(name, value) := entry in
  if String.eqb value "" then st
  else
    let '(id, st') := getId prefix name st in
    if Str.startsWith "@" value
    then push (getBlockStylesheet value id) st'
    else push (getSelectorStylesheet value id) st'.

Definition registerConditions (options : ConfigOptions)
    (registry : gmap string string) : ConfigState :=
  let st0 := {| idx := 0; stylesheet := []; conditionIdMap := registry |} in
  match conditions options with
  | Some cs => fold_left (registerCondition (cssVarPrefix options)) cs st0
  | None => st0
  end.

(** ** The resolver *)

Section Resolver.
(** [properties] is captured from the configuration; [conditionIdMap] is
    the module-level map as it stands when [style] is called. *)
Variable properties : option (gmap string Expander).
Variable conditionIdMap : gmap string string.

(** [const id = conditionIdMap.get(key); if (id)]. *)
Definition conditionId (key : string) : option string :=
  match conditionIdMap !! key with
  | Some id => if String.eqb id "" then None else Some id
  | None => None
  end.

(** [properties && properties[key]]. *)
Definition expander (key : string) : option Expander :=
  match properties with
  | Some ps => ps !! key
  | None => None
  end.

Definition malformed (key : string) (value : value) : list diagnostic :=
  [ ConsoleWarn
      (key +:+ " is defined as a condition and it must be passed on object");
    ConsoleLog "Expected object, but received:" value ].

(** One iteration of [for (const _key in _styles)]. The state is
    [pStyles], [conditionsToProcess] and the console. *)
Definition scanKey (st : CSSProps * list Cond.t * list diagnostic)
    (entry : string * value) : CSSProps * list Cond.t * list diagnostic :=
  let '(pStyles, conditionsToProcess, console) := st in
  let '(key, value) := entry in
  match conditionId key with
  | Some id =>
      if isObject value
      then (pStyles,
            conditionsToProcess
              ++ [{| Cond.name := key; Cond.id := id; Cond.value := value |}],
            console)
      else (pStyles, conditionsToProcess, console ++ malformed key value)
  | None =>
      match expander key with
      | Some fn => (Obj.assign pStyles (fn value), conditionsToProcess, console)
      | None => (Obj.set key value pStyles, conditionsToProcess, console)
      end
  end.

Definition scanKeys (entries : obj)
  : CSSProps * list Cond.t * list diagnostic :=
  fold_left scanKey entries ([], [], []).

(** [pStyles[k] = getPropertyValue(c.id, processedValue[k], pStyles[k])]. *)
Definition wrapEntry (id : string) (pStyles : CSSProps)
    (kv : string * value) : CSSProps :=
  Obj.set (fst kv)
    (VStr (getPropertyValue id (snd kv) (Obj.get (fst kv) pStyles)))
    pStyles.

(** The body of the [conditionsToProcess.forEach] callback, given the
    result of [processStyles(c.value)]. *)
Definition applyCondition (id : string)
    (processed : CSSProps * list diagnostic)
    (st : CSSProps * list diagnostic) : CSSProps * list diagnostic :=
  let '(processedValue, inner) := processed in
  let '(pStyles, console) := st in
  (fold_left (wrapEntry id) processedValue pStyles, console ++ inner).

(** [processStyles]. The recursion is on the nesting of the style
    description, so the [forEach] loop walks the entries themselves and
    visits exactly those that the first loop pushed to
    [conditionsToProcess]; [processStyles_unfold] below restores the
    two-loop reading. Only objects are ever passed. *)
Fixpoint processStyles (_styles : value) : CSSProps * list diagnostic :=
  match _styles with
  | VObj entries =>
      let '(pStyles, _, console) := scanKeys entries in
      (fix forEach (l : obj) (st : CSSProps * list diagnostic) :=
         match l with
         | [] => st
         | (key, value) :: l' =>
             match conditionId key, value with
             | Some id, VObj _ =>
                 forEach l' (applyCondition id (processStyles value) st)
             | _, _ => forEach l' st
             end
         end) entries (pStyles, console)
  | _ => ([], [])
  end.

(** [style]. *)
Definition style (styles : obj) : CSSProps * list diagnostic :=
  processStyles (VObj styles).

(** *** The two loops, component by component

    The first loop threads three accumulators and each key touches exactly
    one of them; these are the per-key contributions and the three results
    the loop leaves behind. *)

(** What one key contributes to each component of the first loop. *)
Definition pushed (entry : string * value) : list Cond.t :=
  match conditionId (fst entry) with
  | Some id =>
      if isObject (snd entry)
      then [{| Cond.name := fst entry; Cond.id := id; Cond.value := snd entry |}]
      else []
  | None => []
  end.

Definition warned (entry : string * value) : list diagnostic :=
  match conditionId (fst entry) with
  | Some id =>
      if isObject (snd entry) then [] else malformed (fst entry) (snd entry)
  | None => []
  end.

Definition written (pStyles : CSSProps) (entry : string * value) : CSSProps :=
  match conditionId (fst entry) with
  | Some _ => pStyles
  | None =>
      match expander (fst entry) with
      | Some fn => Obj.assign pStyles (fn (snd entry))
      | None => Obj.set (fst entry) (snd entry) pStyles
      end
  end.

(** The three results of the first loop. *)
Definition baseStyles (es : obj) : CSSProps := fold_left written es [].
Definition conditionsToProcess (es : obj) : list Cond.t := flat_map pushed es.
Definition baseConsole (es : obj) : list diagnostic := flat_map warned es.

(** The [forEach] callback. *)
Definition processCondition (st : CSSProps * list diagnostic) (c : Cond.t)
  : CSSProps * list diagnostic :=
  applyCondition (Cond.id c) (processStyles (Cond.value c)) st.

End Resolver.

(** The object returned by [defineConfig]; [style] reads the module-level
    map of the moment it is called. *)
Record Config : Type := {
  cfg_stylesheet : string;
  cfg_style : gmap string string -> obj -> CSSProps * list diagnostic;
}.

(** [defineConfig], together with the module-level map it leaves behind. *)
Definition defineConfig (options : ConfigOptions)
    (registry : gmap string string) : Config * gmap string string :=
  let st := registerConditions options registry in
  ({| cfg_stylesheet := Str.join Str.newline (stylesheet st);
      cfg_style := style (properties options) |},
   conditionIdMap st).

(** ** The registrations of one configuration

    What one [defineConfig] call registers, read off the loop: the
    conditions with a non-empty text, in enumeration order, each with the
    id that [getId] issues at that point. *)

Record Condition : Type := {
  name : string;
  rawSelectorOrQuery : string;
  variableId : string;
}.

Fixpoint issue (prefix : string) (n : N) (cs : list (string * string))
  : list Condition :=
  match cs with
  | [] => []
  | (nm, raw) :: cs' =>
      if String.eqb raw "" then issue prefix n cs'
      else {| name := nm; rawSelectorOrQuery := raw;
              variableId := prefix +:+ pretty (n + 1)%N |}
           :: issue prefix (n + 1) cs'
  end.

Definition registrations (options : ConfigOptions) : list Condition :=
  match conditions options with
  | Some cs => issue (cssVarPrefix options) 0 cs
  | None => []
  end.

(** [conditionIdMap.set(name, id)]. *)
Definition record (m : gmap string string) (c : Condition) : gmap string string :=
  <[name c := variableId c]> m.

(** The stylesheet line pushed for a registration. *)
Definition fragmentOf (c : Condition) : string :=
  if Str.startsWith "@" (rawSelectorOrQuery c)
  then getBlockStylesheet (rawSelectorOrQuery c) (variableId c)
  else getSelectorStylesheet (rawSelectorOrQuery c) (variableId c).

(** ** The stylesheet fragment in the words of the design

    A second description of a fragment, written from the prose: a default
    rule, then an override rule whose shape depends on the kind of the
    condition. It is compared with [fragmentOf] below. *)

Module Sheet.

Inductive Kind : Type := Selector | Block.

(** [Block] when the raw text begins with [@]. *)
Definition kindOf (raw : string) : Kind :=
  match raw with
  | String c _ => if Ascii.eqb c "@" then Block else Selector
  | EmptyString => Selector
  end.

(** Every element: [--id-0] is [initial], [--id-1] is empty. *)
Definition defaultRule (id : string) : string :=
  "*{--" +:+ id +:+ "-0:initial;--" +:+ id +:+ "-1: ;}".

(** Under [selector]: both flipped. *)
Definition overrideRule (selector id : string) : string :=
  selector +:+ "{--" +:+ id +:+ "-0: ;--" +:+ id +:+ "-1:initial;}".

(** The raw selector with the [&] token replaced by the universal
    selector, wherever the token stands. *)
Fixpoint universal (raw : string) : string :=
  match raw with
  | EmptyString => EmptyString
  | String c rest =>
      String (if Ascii.eqb c "&" then "*"%char else c) (universal rest)
  end.

Definition fragment (raw id : string) : string :=
  match kindOf raw with
  | Selector => defaultRule id +:+ " " +:+ overrideRule (universal raw) id
  | Block => defaultRule id +:+ " " +:+ raw +:+ "{" +:+ overrideRule "*" id +:+ "}"
  end.

End Sheet.

(** ** Fallback chains

    The value written for a property, as a term: a base value wrapped once
    per condition that touched the property, innermost first. *)

Inductive chain : Type :=
  | Base (v : value)
  | Toggle (id : string) (on : value) (off : chain).

(** The value stored in [pStyles] for a chain. *)
Fixpoint chainValue (c : chain) : value :=
  match c with
  | Base v => v
  | Toggle id on off => VStr (getPropertyValue id on (chainValue off))
  end.

(** The branch a pair [var(--id-1,on) var(--id-0,off)] resolves to under the
    rules of the stylesheet: for an active condition [--id-1] is [initial],
    so its fallback [on] is used and [--id-0] is empty; for an inactive one
    the converse. *)
Fixpoint chainSelect (active : string -> bool) (c : chain) : string :=
  match c with
  | Base v => toString (orRevertLayer v)
  | Toggle id on off =>
      if active id then toString on else chainSelect active off
  end.

Section Chains.
Variable properties : option (gmap string Expander).
Variable conditionIdMap : gmap string string.

(** A pending condition wraps the chain of [k] when its resolved node
    has the property. *)
Definition chainStep (k : string) (ch : chain) (c : Cond.t) : chain :=
  match Obj.lookup k (fst (processStyles properties conditionIdMap (Cond.value c))) with
  | Some on => Toggle (Cond.id c) on ch
  | None => ch
  end.

Definition chainAfter (k : string) (cs : list Cond.t) (ch : chain) : chain :=
  fold_left (chainStep k) cs ch.

(** The chain of property [k] in a node. *)
Definition chainOf (k : string) (es : obj) : chain :=
  chainAfter k (conditionsToProcess conditionIdMap es)
    (Base (Obj.get k (baseStyles properties conditionIdMap es))).
End Chains.

(** ** The scenario of the README *)

Module Scenario.

(** [p: (v) => ({ padding: v * 4 + 'px' })], on the numeric tokens it is
    declared for; the coercion of other tokens to numbers is not modelled
    and they are shown as [NaN]. *)
Definition p : Expander := fun v =>
  match v with
  | VNum n => [("padding", VStr (toString (VNum (n * 4)) +:+ "px"))]
  | _ => [("padding", VStr "NaNpx")]
  end.

(** [{ conditions: { hover: '&:hover' }, properties: { p } }]. *)
Definition options : ConfigOptions :=
  {| conditions := Some [("hover", "&:hover")];
     properties := Some {[ "p" := p ]};
     cssVariablePrefix := None |}.

(** [{ conditions: { hover: '&:hover' } }] and [{ conditions: { focus:
    '&:focus' } }], two configurations without properties. *)
Definition hoverOnly : ConfigOptions :=
  {| conditions := Some [("hover", "&:hover")];
     properties := None; cssVariablePrefix := None |}.

Definition focusOnly : ConfigOptions :=
  {| conditions := Some [("focus", "&:focus")];
     properties := None; cssVariablePrefix := None |}.

(** A configuration that registers [focus] and then [hover] once more. *)
Definition hoverAgain : ConfigOptions :=
  {| conditions := Some [("focus", "&:focus"); ("hover", ".group:hover &")];
     properties := None; cssVariablePrefix := None |}.

(** A selector that names the styled element twice. *)
Definition hoverOrFocus : ConfigOptions :=
  {| conditions := Some [("interactive", "&:hover, &:focus")];
     properties := None; cssVariablePrefix := None |}.

(** [hover] and [md] in one configuration. *)
Definition hoverAndMd : ConfigOptions :=
  {| conditions := Some [("hover", "&:hover"); ("md", "@media (min-width: 768px)")];
     properties := None; cssVariablePrefix := None |}.

(** Two conditions [condA] and [condB], and the node
    [{ color: "base", condA: { color: "x" }, condB: { color: "y" } }]. *)
Definition twoConditions : gmap string string :=
  {[ "condA" := "p1"; "condB" := "p2" ]}.

Definition colorNode : obj :=
  [("color", VStr "base"); ("condA", VObj [("color", VStr "x")]);
   ("condB", VObj [("color", VStr "y")])].

End Scenario.

(** ** Keys and shapes of a style description *)

(** Every key of a description, at every nesting level. *)
Fixpoint nodeKeys (v : value) : list string :=
  match v with
  | VObj es => flat_map (fun kv => fst kv :: nodeKeys (snd kv)) es
  | _ => []
  end.

(** A description in which every condition key holds an object, at every
    level the resolver descends into. *)
Fixpoint wellShaped (conditionIdMap : gmap string string) (v : value) : bool :=
  match v with
  | VObj es =>
      forallb
        (fun kv =>
           match conditionId conditionIdMap (fst kv) with
           | Some _ => isObject (snd kv) && wellShaped conditionIdMap (snd kv)
           | None => true
           end) es
  | _ => true
  end.

(** An entry that the first loop defers: a condition key holding an
    object. *)
Definition pending (conditionIdMap : gmap string string)
    (entry : string * value) : bool :=
  match conditionId conditionIdMap (fst entry) with
  | Some _ => isObject (snd entry)
  | None => false
  end.

(** An object none of whose keys is a registered condition. *)
Definition plainKeys (conditionIdMap : gmap string string) (o : obj) : Prop :=
  forall k, In k (Obj.keys o) -> conditionId conditionIdMap k = None.

(** ** The resolver with [Object.prototype] in view

    [properties], [pStyles] and the objects an expander returns are plain
    JavaScript objects: looking a key up in them also finds the members of
    [Object.prototype], and assigning to [__proto__] does not store a
    property. The definitions above read these objects by their own
    properties; the definitions of this module follow the source through
    the prototype as well, for code that runs in strict mode (as module
    code does). [style_reads_own_properties] below shows where the two
    readings agree. *)

Module Js.

(** The properties of [Object.prototype]; none of them is enumerable. *)
Definition objectPrototype : list string :=
  [ "constructor"; "__defineGetter__"; "__defineSetter__"; "hasOwnProperty";
    "__lookupGetter__"; "__lookupSetter__"; "isPrototypeOf";
    "propertyIsEnumerable"; "toString"; "valueOf"; "__proto__";
    "toLocaleString" ].

Definition inherited (k : string) : bool :=
  existsb (String.eqb k) objectPrototype.

(** What an object inherits from: [Object.prototype], nothing, or a plain
    object of the description (which itself inherits from
    [Object.prototype]). *)
Inductive proto : Type :=
  | ObjectPrototype
  | NullPrototype
  | Plain (o : obj).

(** An object under construction: its own properties and its prototype. *)
Record object : Type := { own : obj; prototype : proto }.

(** [{}]. *)
Definition empty : object := {| own := []; prototype := ObjectPrototype |}.

(** What [o[k]] can yield: a value of the description, a built-in function
    of [Object.prototype] (by its name: [constructor] is the function
    [Object]), or [Object.prototype] itself. *)
Inductive ref : Type :=
  | Val (v : value)
  | Native (name : string)
  | PrototypeObject.

(** [k] looked up on [Object.prototype] for an object whose prototype is
    [receiver]; the getter of [__proto__] answers with that prototype. *)
Definition readObjectPrototype (receiver : proto) (k : string) : ref :=
  if String.eqb k "__proto__" then
    match receiver with
    | Plain p => Val (VObj p)
    | _ => PrototypeObject
    end
  else if inherited k then Native (if String.eqb k "constructor" then "Object" else k)
  else Val VUndefined.

(** [o[k]]. *)
Definition read (k : string) (o : object) : ref :=
  match Obj.lookup k (own o) with
  | Some v => Val v
  | None =>
      match prototype o with
      | NullPrototype => Val VUndefined
      | ObjectPrototype => readObjectPrototype ObjectPrototype k
      | Plain p =>
          match Obj.lookup k p with
          | Some v => Val v
          | None => readObjectPrototype (Plain p) k
          end
      end
  end.

(** Whether assigning to [__proto__] reaches the setter of
    [Object.prototype]. *)
Definition setterApplies (o : object) : bool :=
  negb (Obj.has "__proto__" (own o))
  && match prototype o with
     | ObjectPrototype => true
     | NullPrototype => false
     | Plain p => negb (Obj.has "__proto__" p)
     end.

(** [o[k] = v]. The setter of [__proto__] replaces the prototype by an
    object or by [null] and ignores every other value; any other
    assignment writes an own property. *)
Definition write (k : string) (v : value) (o : object) : object :=
  if String.eqb k "__proto__" && setterApplies o then
    match v with
    | VObj p => {| own := own o; prototype := Plain p |}
    | VNull => {| own := own o; prototype := NullPrototype |}
    | _ => o
    end
  else {| own := Obj.set k v (own o); prototype := prototype o |}.

(** The properties [for ... in] visits, with the values read under their
    keys: the own ones, then the inherited enumerable ones that no own
    property hides. *)
Definition enumerate (o : object) : obj :=
  own o
  ++ match prototype o with
     | Plain p => List.filter (fun kv => negb (Obj.has (fst kv) (own o))) p
     | _ => []
     end.

(** [for (const k in src) dst[k] = src[k]]. *)
Definition copy (dst : object) (src : obj) : object :=
  fold_left (fun o kv => write (fst kv) (snd kv) o) src dst.

(** The characters of a string as the indexed properties of its wrapper. *)
Fixpoint chars (i : N) (s : string) : obj :=
  match s with
  | EmptyString => []
  | String c s' => (pretty i, VStr (String c EmptyString)) :: chars (i + 1) s'
  end.

(** The enumerable properties of [Object(v)]. *)
Definition wrapped (v : value) : obj :=
  match v with
  | VObj o => o
  | VStr s => chars 0 s
  | _ => []
  end.

(** What [properties[key]] finds. *)
Inductive callee : Type :=
  | User (fn : Expander)
  | Inherited (name : string)
  | Absent.

(** [properties && properties[key]]. *)
Definition find (properties : option (gmap string Expander)) (key : string)
  : callee :=
  match properties with
  | Some ps =>
      match ps !! key with
      | Some fn => User fn
      | None => if inherited key then Inherited key else Absent
      end
  | None => Absent
  end.

(** The result of a call, as the loop over it sees it. *)
Inductive called : Type :=
  | Returns (entries : obj)
  | TypeError.

(** [fn(value)] for a member of [Object.prototype] called as a plain
    function, that is, without a [this]: [Object] wraps its argument,
    [toString] answers ["[object Undefined]"], [isPrototypeOf] answers
    [false] to anything but an object, and every other call throws (as
    does the call of [__proto__], which is not a function). *)
Definition callInherited (name : string) (value : value) : called :=
  if String.eqb name "constructor" then Returns (wrapped value)
  else if String.eqb name "toString" then Returns (chars 0 "[object Undefined]")
  else if String.eqb name "isPrototypeOf" then
    if isObject value then TypeError else Returns []
  else TypeError.

(** How a call of [processStyles] ends, with what the console received. *)
Inductive outcome : Type :=
  | Returned (pStyles : object) (console : list diagnostic)
  | Thrown (console : list diagnostic).

(** The own properties of the object a call returned. *)
Definition result (o : outcome) : obj :=
  match o with
  | Returned pStyles _ => own pStyles
  | Thrown _ => []
  end.

Definition consoleOf (o : outcome) : list diagnostic :=
  match o with
  | Returned _ console => console
  | Thrown console => console
  end.

(** The state of the first loop. *)
Inductive scan : Type :=
  | Scanning (pStyles : object) (conditionsToProcess : list Cond.t)
      (console : list diagnostic)
  | Raised (console : list diagnostic).

Section Resolver.
(** The text an engine prints for a built-in function. *)
Variable nativeText : string -> string.
Variable properties : option (gmap string Expander).
Variable conditionIdMap : gmap string string.

(** The text of [off || 'revert-layer']. *)
Definition offText (off : ref) : string :=
  match off with
  | Val v => toString (orRevertLayer v)
  | Native name => nativeText name
  | PrototypeObject => "[object Object]"
  end.

(** [getPropertyValue]. *)
Definition getPropertyValue (varId : string) (on : value) (off : ref) : string :=
  "var(--" +:+ varId +:+ "-1," +:+ toString on +:+ ") var(--" +:+ varId +:+
  "-0," +:+ offText off +:+ ")".

(** One iteration of [for (const _key in _styles)]. *)
Definition scanKey (st : scan) (entry : string * value) : scan :=
  match st with
  | Raised console => Raised console
  | Scanning pStyles conditionsToProcess console =>
      let '(key, value) := entry in
      match conditionId conditionIdMap key with
      | Some id =>
          if isObject value
          then Scanning pStyles
                 (conditionsToProcess
                    ++ [{| Cond.name := key; Cond.id := id; Cond.value := value |}])
                 console
          else Scanning pStyles conditionsToProcess
                 (console ++ malformed key value)
      | None =>
          match find properties key with
          | User fn => Scanning (copy pStyles (fn value)) conditionsToProcess console
          | Inherited name =>
              match callInherited name value with
              | Returns returnVal =>
                  Scanning (copy pStyles returnVal) conditionsToProcess console
              | TypeError => Raised console
              end
          | Absent => Scanning (write key value pStyles) conditionsToProcess console
          end
      end
  end.

Definition scanKeys (entries : obj) : scan :=
  fold_left scanKey entries (Scanning empty [] []).

(** [pStyles[k] = getPropertyValue(c.id, processedValue[k], pStyles[k])]. *)
Definition wrapEntry (id : string) (pStyles : object) (kv : string * value)
  : object :=
  write (fst kv)
    (VStr (getPropertyValue id (snd kv) (read (fst kv) pStyles)))
    pStyles.

(** The body of the [forEach] callback, given how [processStyles(c.value)]
    ended; nothing runs once an exception is on its way. *)
Definition applyCondition (id : string) (processed st : outcome) : outcome :=
  match st with
  | Thrown console => Thrown console
  | Returned pStyles console =>
      match processed with
      | Thrown inner => Thrown (console ++ inner)
      | Returned processedValue inner =>
          Returned (fold_left (wrapEntry id) (enumerate processedValue) pStyles)
            (console ++ inner)
      end
  end.

(** [processStyles]. *)
Fixpoint processStyles (_styles : value) : outcome :=
  match _styles with
  | VObj entries =>
      match scanKeys entries with
      | Raised console => Thrown console
      | Scanning pStyles _ console =>
          (fix forEach (l : obj) (st : outcome) :=
             match l with
             | [] => st
             | (key, value) :: l' =>
                 match conditionId conditionIdMap key, value with
                 | Some id, VObj _ =>
                     forEach l' (applyCondition id (processStyles value) st)
                 | _, _ => forEach l' st
                 end
             end) entries (Returned pStyles console)
      end
  | _ => Returned empty []
  end.

(** [style]. *)
Definition style (styles : obj) : outcome := processStyles (VObj styles).

End Resolver.

(** The text V8 prints for a built-in function. *)
Definition v8Text (name : string) : string :=
  "function " +:+ name +:+ "() { [native code] }".

(** An object none of whose keys names a member of [Object.prototype]. *)
Definition clean (o : obj) : Prop :=
  forall k, In k (Obj.keys o) -> inherited k = false.

(** A key the first loop can write without meeting [Object.prototype]:
    its expander, when it has one, returns clean objects, and otherwise the
    key is not the name of a member of [Object.prototype]. *)
Definition safeKey (properties : option (gmap string Expander)) (key : string)
  : Prop :=
  match expander properties key with
  | Some fn => forall v, clean (fn v)
  | None => inherited key = false
  end.

(** The keys the resolver writes from: the keys that are not conditions,
    at every level it descends into. *)
Fixpoint writtenKeys (conditionIdMap : gmap string string) (v : value)
  : list string :=
  match v with
  | VObj es =>
      flat_map
        (fun kv =>
           match conditionId conditionIdMap (fst kv) with
           | Some _ => writtenKeys conditionIdMap (snd kv)
           | None => [fst kv]
           end) es
  | _ => []
  end.

(** A description on which the resolver never meets [Object.prototype]. *)
Definition safe (properties : option (gmap string Expander))
    (conditionIdMap : gmap string string) (v : value) : Prop :=
  forall key, In key (writtenKeys conditionIdMap v) -> safeKey properties key.

End Js.

(** * Properties *)

(** ** Objects *)

Module ObjFacts.
Import Obj.

Lemma lookup_update k k' v o :
  lookup k' (update k v o) =
  if String.eqb k' k then (if has k o then Some v else None) else lookup k' o.
Proof.
  unfold has. induction o as [|[k1 v1] o IH]; simpl.
  - by destruct (String.eqb k' k).
  - destruct (String.eqb_spec k k1) as [->|Hk]; simpl.
    + destruct (String.eqb_spec k' k1); simpl; [done|].
      by destruct (String.eqb_spec k' k1).
    + rewrite IH. destruct (String.eqb_spec k' k1) as [->|Hk'].
      * by destruct (String.eqb_spec k1 k) as [->|].
      * done.
Qed.

Lemma lookup_insert_index n k k' v o :
  lookup k o = None ->
  lookup k' (insert_index n k v o) =
  if String.eqb k' k then Some v else lookup k' o.
Proof.
  induction o as [|[k1 v1] o IH]; simpl; intros Hk.
  - by destruct (String.eqb k' k).
  - destruct (String.eqb_spec k k1) as [->|Hne]; [done|].
    destruct (array_index k1) as [m|]; [destruct (m <? n)%N|]; simpl;
      try by destruct (String.eqb k' k).
    rewrite IH by done.
    destruct (String.eqb_spec k' k1) as [->|]; [|done].
    by destruct (String.eqb_spec k1 k) as [->|].
Qed.

Lemma lookup_snoc k k' v o :
  lookup k o = None ->
  lookup k' (o ++ [(k, v)]) = if String.eqb k' k then Some v else lookup k' o.
Proof.
  induction o as [|[k1 v1] o IH]; simpl; intros Hk.
  - by destruct (String.eqb k' k).
  - destruct (String.eqb_spec k k1) as [->|Hne]; [done|].
    rewrite IH by done.
    destruct (String.eqb_spec k' k1) as [->|]; [|done].
    by destruct (String.eqb_spec k1 k) as [->|].
Qed.

(** Reading after writing. *)
Lemma lookup_set k k' v o :
  lookup k' (set k v o) = if String.eqb k' k then Some v else lookup k' o.
Proof.
  unfold set. destruct (has k o) eqn:Hhas.
  - by rewrite lookup_update, Hhas.
  - assert (lookup k o = None) as Hk
      by (unfold has in Hhas; by destruct (lookup k o)).
    destruct (array_index k).
    + by apply lookup_insert_index.
    + by apply lookup_snoc.
Qed.

Lemma get_set k k' v o :
  get k' (set k v o) = if String.eqb k' k then v else get k' o.
Proof. unfold get. rewrite lookup_set. by destruct (String.eqb k' k). Qed.

Lemma lookup_None_keys k o : lookup k o = None <-> ~ In k (keys o).
Proof.
  induction o as [|[k1 v1] o IH]; simpl; [tauto|].
  destruct (String.eqb_spec k k1) as [->|Hne]; [split; [done|tauto]|].
  rewrite IH. split; [intros H [?|?]; [congruence|tauto] | tauto].
Qed.

Lemma keys_update k v o : keys (update k v o) = keys o.
Proof.
  induction o as [|[k1 v1] o IH]; simpl; [done|].
  destruct (String.eqb k k1); simpl; [done|]. by f_equal.
Qed.

Lemma set_nil k v : set k v [] = [(k, v)].
Proof. unfold set. cbn. by destruct (array_index k). Qed.

(** *** Objects in enumeration order *)

Lemma precedes_irrefl k : precedes k k = false.
Proof.
  unfold precedes. destruct (array_index k).
  - apply N.ltb_irrefl.
  - by rewrite String.eqb_refl.
Qed.

Lemma ordered_app_l ks1 ks2 : ordered (ks1 ++ ks2) = true -> ordered ks1 = true.
Proof.
  induction ks1 as [|k ks1 IH]; [done|]. cbn [ordered app].
  rewrite !andb_true_iff, forallb_app, andb_true_iff. intuition.
Qed.

Lemma ordered_snoc ks k :
  ordered (ks ++ [k]) = true -> Forall (fun k1 => precedes k1 k = true) ks.
Proof.
  induction ks as [|k1 ks IH]; [constructor|]. cbn [ordered app].
  rewrite andb_true_iff, forallb_app, andb_true_iff. cbn [forallb].
  rewrite andb_true_r. intros [[_ H1] H2]. constructor; auto.
Qed.

Lemma lookup_fresh k (o : obj) :
  Forall (fun k1 => precedes k1 k = true) (keys o) -> lookup k o = None.
Proof.
  intros H. apply lookup_None_keys. intros Hin.
  rewrite List.Forall_forall in H. specialize (H k Hin).
  by rewrite precedes_irrefl in H.
Qed.

Lemma insert_index_last n k v (o : obj) :
  array_index k = Some n ->
  Forall (fun k1 => precedes k1 k = true) (keys o) ->
  insert_index n k v o = o ++ [(k, v)].
Proof.
  intros Hk. induction o as [|[k1 v1] o IH]; [done|].
  cbn [keys map fst]. intros H. apply Forall_cons_1 in H as [H1 H].
  cbn [insert_index app]. unfold precedes in H1. rewrite Hk in H1.
  destruct (array_index k1) as [m|]; [|done]. rewrite H1.
  f_equal. by apply IH.
Qed.

(** Writing a key that comes last in enumeration order appends it. *)
Lemma set_last k v (o : obj) :
  wf (o ++ [(k, v)]) = true -> set k v o = o ++ [(k, v)].
Proof.
  unfold wf, keys. rewrite map_app. cbn [map fst]. intros Hwf.
  apply ordered_snoc in Hwf. unfold set, has.
  rewrite (lookup_fresh k o Hwf).
  destruct (array_index k) as [n|] eqn:Hk; [|done].
  by apply insert_index_last.
Qed.

(** Copying a well-formed object into an empty one reproduces it. *)
Lemma assign_wf_app (dst src : obj) :
  wf (dst ++ src) = true -> assign dst src = dst ++ src.
Proof.
  unfold assign. revert dst.
  induction src as [|[k v] src IH]; intros dst Hwf.
  - by rewrite app_nil_r.
  - cbn [fold_left fst snd].
    replace (dst ++ (k, v) :: src) with ((dst ++ [(k, v)]) ++ src) in *
      by (by rewrite <- app_assoc).
    rewrite set_last.
    + by apply IH.
    + unfold wf, keys in *. rewrite map_app in Hwf.
      by apply ordered_app_l in Hwf.
Qed.

Lemma assign_wf (src : obj) : wf src = true -> assign [] src = src.
Proof. intros H. by apply (assign_wf_app [] src). Qed.

(** *** Writing keeps the enumeration order *)

Lemma array_index_pretty k n : array_index k = Some n -> pretty n = k.
Proof.
  unfold array_index.
  destruct (String.eqb_spec (pretty (parse_digits 0 k)) k) as [Heq|]; [|done].
  destruct (_ <? _)%N; [|done]. cbn. by intros [= <-].
Qed.

Lemma array_index_inj k1 k2 n :
  array_index k1 = Some n -> array_index k2 = Some n -> k1 = k2.
Proof.
  intros H1%array_index_pretty H2%array_index_pretty. congruence.
Qed.

Lemma forallb_keys_insert_index f n k v (o : obj) :
  forallb f (keys (insert_index n k v o)) = f k && forallb f (keys o).
Proof.
  unfold keys. induction o as [|[k1 v1] o IH]; [done|]. cbn [insert_index].
  destruct (array_index k1) as [m|]; [destruct (m <? n)%N|]; try done.
  cbn [map fst forallb]. rewrite IH.
  by destruct (f k), (f k1).
Qed.

(** Whatever may follow an index may follow a smaller index. *)
Lemma precedes_index_le k k1 k2 n m :
  array_index k = Some n -> array_index k1 = Some m -> (n <= m)%N ->
  precedes k1 k2 = true -> precedes k k2 = true.
Proof.
  unfold precedes. intros -> ->. destruct (array_index k2); [|done].
  rewrite !N.ltb_lt. lia.
Qed.

(** Whatever may follow a key that is not an index may follow an index. *)
Lemma precedes_index_any k k1 k2 n :
  array_index k = Some n -> array_index k1 = None ->
  precedes k1 k2 = true -> precedes k k2 = true.
Proof.
  unfold precedes. intros -> ->. by destruct (array_index k2).
Qed.

Lemma forallb_impl {A} (f g : A -> bool) l :
  (forall x, f x = true -> g x = true) ->
  forallb f l = true -> forallb g l = true.
Proof. rewrite !forallb_forall. auto. Qed.

Lemma ordered_insert_index n k v (o : obj) :
  array_index k = Some n -> lookup k o = None ->
  ordered (keys o) = true -> ordered (keys (insert_index n k v o)) = true.
Proof.
  intros Hk. induction o as [|[k1 v1] o IH]; [done|].
  cbn [lookup]. destruct (String.eqb_spec k k1) as [|Hne]; [done|].
  intros Hfresh. cbn [keys map fst ordered]. rewrite andb_true_iff.
  intros [Hk1 Ho]. cbn [insert_index].
  destruct (array_index k1) as [m|] eqn:Hm; [destruct (m <? n)%N eqn:Hmn|].
  - cbn [keys map fst ordered].
    fold (keys (insert_index n k v o)).
    rewrite forallb_keys_insert_index, andb_true_iff, andb_true_iff.
    repeat split; [|done|by apply IH].
    unfold precedes. by rewrite Hm, Hk.
  - apply N.ltb_ge in Hmn.
    assert (n <> m) as Hnm.
    { intros ->. apply Hne. by apply (array_index_inj _ _ m). }
    cbn [keys map fst ordered forallb]. rewrite !andb_true_iff.
    repeat split; try done.
    + unfold precedes. rewrite Hk, Hm. apply N.ltb_lt. lia.
    + revert Hk1. apply forallb_impl. intros k2.
      apply (precedes_index_le k k1 k2 n m); [done|done|lia].
  - cbn [keys map fst ordered forallb]. rewrite !andb_true_iff.
    repeat split; try done.
    + unfold precedes. by rewrite Hk, Hm.
    + revert Hk1. apply forallb_impl. intros k2.
      by apply (precedes_index_any k k1 k2 n).
Qed.

Lemma ordered_snoc_name ks k :
  array_index k = None -> ~ In k ks ->
  ordered ks = true -> ordered (ks ++ [k]) = true.
Proof.
  intros Hk. induction ks as [|k1 ks IH]; [done|].
  cbn [In app ordered]. intros Hin. rewrite !andb_true_iff, forallb_app.
  intros [H1 H2]. rewrite andb_true_iff. cbn [forallb].
  repeat split; [done| |apply IH; tauto].
  rewrite andb_true_r. unfold precedes. rewrite Hk.
  destruct (array_index k1); [done|].
  apply negb_true_iff, String.eqb_neq. tauto.
Qed.

(** [o[k] = v] leaves a well-formed object well-formed. *)
Lemma wf_set k v (o : obj) : wf o = true -> wf (set k v o) = true.
Proof.
  unfold wf, set. intros Ho. destruct (has k o) eqn:Hhas.
  - by rewrite keys_update.
  - assert (lookup k o = None) as Hk
      by (unfold has in Hhas; by destruct (lookup k o)).
    destruct (array_index k) as [n|] eqn:Hidx.
    + by apply ordered_insert_index.
    + unfold keys. rewrite map_app. apply ordered_snoc_name; try done.
      by apply lookup_None_keys.
Qed.

Lemma wf_assign (dst src : obj) : wf dst = true -> wf (assign dst src) = true.
Proof.
  unfold assign. revert dst.
  induction src as [|kv src IH]; intros dst Hwf; [done|].
  cbn [fold_left]. apply IH. by apply wf_set.
Qed.

Lemma wf_NoDup (o : obj) : wf o = true -> List.NoDup (keys o).
Proof.
  unfold wf. induction (keys o) as [|k ks IH]; [constructor|].
  cbn [ordered]. rewrite andb_true_iff. intros [Hk Hks].
  constructor; [|by apply IH]. intros Hin.
  rewrite forallb_forall in Hk. specialize (Hk k Hin).
  by rewrite precedes_irrefl in Hk.
Qed.

End ObjFacts.

(** ** The two loops of [processStyles] *)

Section ResolverFacts.
Variable properties : option (gmap string Expander).
Variable conditionIdMap : gmap string string.

Local Abbreviation cid := (conditionId conditionIdMap).
Local Abbreviation expand := (expander properties).
Local Abbreviation scan1 := (scanKey properties conditionIdMap).
Local Abbreviation scan := (scanKeys properties conditionIdMap).
Local Abbreviation process := (processStyles properties conditionIdMap).
Local Abbreviation pushed := (pushed conditionIdMap).
Local Abbreviation warned := (warned conditionIdMap).
Local Abbreviation written := (written properties conditionIdMap).
Local Abbreviation baseStyles := (baseStyles properties conditionIdMap).
Local Abbreviation conditionsToProcess := (conditionsToProcess conditionIdMap).
Local Abbreviation baseConsole := (baseConsole conditionIdMap).
Local Abbreviation processCondition :=
  (processCondition properties conditionIdMap).

Lemma scanKey_split p c g entry :
  scan1 (p, c, g) entry = (written p entry, c ++ pushed entry, g ++ warned entry).
Proof.
  destruct entry as [key v]. unfold scanKey, written, pushed, warned. simpl.
  destruct (cid key) as [id|].
  - destruct (isObject v); by rewrite app_nil_r.
  - destruct (expand key); by rewrite !app_nil_r.
Qed.

Lemma scan_split es p c g :
  fold_left scan1 es (p, c, g) =
  (fold_left written es p, c ++ flat_map pushed es, g ++ flat_map warned es).
Proof.
  revert p c g. induction es as [|e es IH]; intros p c g.
  - simpl. by rewrite !app_nil_r.
  - cbn [fold_left]. rewrite scanKey_split, IH, <- !app_assoc. done.
Qed.

Lemma scanKeys_eq es :
  scan es = (baseStyles es, conditionsToProcess es, baseConsole es).
Proof. unfold scanKeys. by rewrite scan_split. Qed.

Lemma forEach_pushed (l : obj) (st : CSSProps * list diagnostic) :
  (fix forEach (l : obj) (st : CSSProps * list diagnostic) :=
     match l with
     | [] => st
     | (key, value) :: l' =>
         match cid key, value with
         | Some id, VObj _ =>
             forEach l' (applyCondition id (process value) st)
         | _, _ => forEach l' st
         end
     end) l st
  = fold_left processCondition (flat_map pushed l) st.
Proof.
  revert st. induction l as [|[key v] l IH]; intros st; [done|].
  change (flat_map pushed ((key, v) :: l))
    with (pushed (key, v) ++ flat_map pushed l).
  rewrite fold_left_app. set (rest := flat_map pushed l).
  unfold pushed; cbn [fst snd]. simpl.
  destruct (cid key) as [id|]; [destruct v|]; simpl; apply IH.
Qed.

(** [processStyles] as the source writes it: the first loop fills
    [pStyles] and [conditionsToProcess], then [forEach] folds the pending
    conditions into [pStyles]. *)
Lemma processStyles_unfold es :
  process (VObj es) =
  fold_left processCondition (conditionsToProcess es)
    (baseStyles es, baseConsole es).
Proof.
  cbn [processStyles]. rewrite scanKeys_eq.
  apply forEach_pushed.
Qed.

(** *** The result is a well-formed object *)

Lemma wf_written p e : Obj.wf p = true -> Obj.wf (written p e) = true.
Proof.
  intros Hp. unfold written. destruct (cid (fst e)); [done|].
  destruct (expand (fst e)).
  - by apply ObjFacts.wf_assign.
  - by apply ObjFacts.wf_set.
Qed.

Lemma wf_baseStyles es : Obj.wf (baseStyles es) = true.
Proof.
  unfold baseStyles.
  assert (forall p, Obj.wf p = true -> Obj.wf (fold_left written es p) = true)
    as H; [|by apply H].
  induction es as [|e es IH]; intros p Hp; [done|].
  cbn [fold_left]. apply IH. by apply wf_written.
Qed.

Lemma wf_wrapEntries id child p :
  Obj.wf p = true -> Obj.wf (fold_left (wrapEntry id) child p) = true.
Proof.
  revert p. induction child as [|kv child IH]; intros p Hp; [done|].
  cbn [fold_left]. apply IH. by apply ObjFacts.wf_set.
Qed.

Lemma wf_processCondition st c :
  Obj.wf (fst st) = true -> Obj.wf (fst (processCondition st c)) = true.
Proof.
  destruct st as [p g]. unfold processCondition, applyCondition.
  destruct (process (Cond.value c)) as [child inner]. cbn [fst].
  apply wf_wrapEntries.
Qed.

(** The map returned by [processStyles] lists no property twice and
    lists its properties in enumeration order. *)
Lemma wf_processStyles v : Obj.wf (fst (process v)) = true.
Proof.
  destruct v as [| |b|n|s|es]; try reflexivity.
  rewrite processStyles_unfold.
  generalize (wf_baseStyles es). generalize (baseStyles es) (baseConsole es).
  induction (conditionsToProcess es) as [|c cs IH]; intros p g Hp; [done|].
  cbn [fold_left].
  pose proof (wf_processCondition (p, g) c Hp) as Hc.
  destruct (processCondition (p, g) c) as [p' g']. by apply IH.
Qed.

Lemma NoDup_processStyles v : List.NoDup (Obj.keys (fst (process v))).
Proof. apply ObjFacts.wf_NoDup, wf_processStyles. Qed.

(** *** Reading a property after a condition was folded in *)

Lemma lookup_wrapEntries id child p k :
  List.NoDup (Obj.keys child) ->
  Obj.lookup k (fold_left (wrapEntry id) child p) =
  match Obj.lookup k child with
  | Some on => Some (VStr (getPropertyValue id on (Obj.get k p)))
  | None => Obj.lookup k p
  end.
Proof.
  revert p. induction child as [|[k1 v1] child IH]; intros p Hnd; [done|].
  cbn [fold_left]. inversion Hnd as [|? ? Hk1 Hnd']; subst.
  rewrite IH by done. unfold wrapEntry; cbn [fst snd].
  cbn [Obj.lookup]. destruct (String.eqb_spec k k1) as [->|Hne].
  - apply ObjFacts.lookup_None_keys in Hk1. rewrite Hk1.
    by rewrite ObjFacts.lookup_set, String.eqb_refl.
  - rewrite ObjFacts.get_set, ObjFacts.lookup_set.
    by destruct (String.eqb_spec k k1).
Qed.

Lemma get_processCondition p g c k :
  Obj.get k (fst (processCondition (p, g) c)) =
  match Obj.lookup k (fst (process (Cond.value c))) with
  | Some on => VStr (getPropertyValue (Cond.id c) on (Obj.get k p))
  | None => Obj.get k p
  end.
Proof.
  unfold processCondition, applyCondition.
  pose proof (NoDup_processStyles (Cond.value c)) as Hnd.
  destruct (process (Cond.value c)) as [child inner]. cbn [fst] in *.
  unfold Obj.get at 1. rewrite lookup_wrapEntries by done.
  by destruct (Obj.lookup k child).
Qed.

(** *** The console only grows *)

Lemma processConditions_console cs p g :
  fold_left processCondition cs (p, g) =
  (fst (fold_left processCondition cs (p, [])),
   g ++ snd (fold_left processCondition cs (p, []))).
Proof.
  revert p g. induction cs as [|c cs IH]; intros p g.
  - cbn. by rewrite app_nil_r.
  - cbn [fold_left]. unfold processCondition at 2 4 6. unfold applyCondition.
    destruct (process (Cond.value c)) as [child inner].
    rewrite (IH _ (g ++ inner)), (IH _ ([] ++ inner)).
    cbn [fst snd]. by rewrite <- app_assoc.
Qed.

End ResolverFacts.

(** ** Single keys *)

Section SingleKey.
Variable properties : option (gmap string Expander).
Variable conditionIdMap : gmap string string.

Lemma style_single k v :
  style properties conditionIdMap [(k, v)] =
  fold_left (processCondition properties conditionIdMap)
    (pushed conditionIdMap (k, v))
    (written properties conditionIdMap [] (k, v), warned conditionIdMap (k, v)).
Proof.
  unfold style. rewrite processStyles_unfold.
  unfold conditionsToProcess, baseStyles, baseConsole.
  cbn [flat_map fold_left]. by rewrite !app_nil_r.
Qed.

Lemma conditionId_unregistered k :
  conditionIdMap !! k = None -> conditionId conditionIdMap k = None.
Proof. intros H. unfold conditionId. by rewrite H. Qed.

End SingleKey.



(** ** Malformed condition values *)

Section Malformed.
Variable properties : option (gmap string Expander).
Variable conditionIdMap : gmap string string.

Lemma baseStyles_app es1 es2 :
  baseStyles properties conditionIdMap (es1 ++ es2) =
  fold_left (written properties conditionIdMap) es2
    (baseStyles properties conditionIdMap es1).
Proof. unfold baseStyles. apply fold_left_app. Qed.

(** A registered key with a value that is not an object touches neither
    [pStyles] nor [conditionsToProcess]. *)
Lemma malformed_contribution k id v :
  conditionId conditionIdMap k = Some id ->
  isObject v = false ->
  (forall p, written properties conditionIdMap p (k, v) = p)
  /\ pushed conditionIdMap (k, v) = []
  /\ warned conditionIdMap (k, v) = malformed k v.
Proof.
  intros Hid Hv. unfold written, pushed, warned. cbn [fst snd].
  by rewrite Hid, Hv.
Qed.

End Malformed.



(** ** Conditions against shorthand properties *)

Section Precedence.
Variable conditionIdMap : gmap string string.
Variables properties1 properties2 : option (gmap string Expander).

(** The two property tables agree on every key that is not a condition. *)
Hypothesis agree :
  forall key, conditionId conditionIdMap key = None ->
              expander properties1 key = expander properties2 key.

Lemma written_agree p e :
  written properties1 conditionIdMap p e = written properties2 conditionIdMap p e.
Proof.
  unfold written. destruct (conditionId conditionIdMap (fst e)) eqn:Hc; [done|].
  by rewrite (agree _ Hc).
Qed.

Lemma baseStyles_agree es :
  baseStyles properties1 conditionIdMap es = baseStyles properties2 conditionIdMap es.
Proof.
  unfold baseStyles. generalize (@nil (string * value)).
  induction es as [|e es IH]; intros p; [done|].
  cbn [fold_left]. by rewrite written_agree, IH.
Qed.

Lemma pending_values (P : value -> Prop) es :
  Forall (fun kv => P (snd kv)) es ->
  Forall (fun c => P (Cond.value c)) (conditionsToProcess conditionIdMap es).
Proof.
  unfold conditionsToProcess.
  induction 1 as [|[k v] es Hv _ IH]; [constructor|].
  cbn [flat_map]. apply Forall_app. split; [|done].
  unfold pushed. cbn [fst snd] in *.
  destruct (conditionId conditionIdMap k); [|constructor].
  destruct (isObject v); repeat constructor. done.
Qed.

(** The expander registered under a condition name is never consulted. *)
Lemma processStyles_agree v :
  processStyles properties1 conditionIdMap v
  = processStyles properties2 conditionIdMap v.
Proof.
  induction v as [| |b|n|s|es IH] using value_ind; try reflexivity.
  rewrite !processStyles_unfold, baseStyles_agree.
  apply (pending_values
           (fun v => processStyles properties1 conditionIdMap v
                     = processStyles properties2 conditionIdMap v)) in IH.
  generalize (baseStyles properties2 conditionIdMap es,
              baseConsole conditionIdMap es).
  induction IH as [|c cs Hc _ IHcs]; intros st; [done|].
  cbn [fold_left]. rewrite <- IHcs. f_equal.
  unfold processCondition. by rewrite Hc.
Qed.

End Precedence.

(** C9 -- a name registered both as a condition and as a shorthand
    property is a condition in every resolution: the registry is consulted
    first, so whatever expander [f] is registered under the name, every
    node resolves as if there were none; alone in a node the key is folded
    in as a condition when its value is an object and dropped with the
    diagnostic otherwise. *)
Theorem condition_wins_over_shorthand
    (ps : gmap string Expander) conditionIdMap k id f :
  conditionId conditionIdMap k = Some id ->
  (forall styles,
      style (Some (<[k := f]> ps)) conditionIdMap styles
      = style (Some (delete k ps)) conditionIdMap styles)
  /\ (forall v, isObject v = false ->
        style (Some (<[k := f]> ps)) conditionIdMap [(k, v)] = ([], malformed k v))
  /\ (forall child,
        style (Some (<[k := f]> ps)) conditionIdMap [(k, VObj child)]
        = applyCondition id
            (processStyles (Some (delete k ps)) conditionIdMap (VObj child))
            ([], [])).
Proof.
  intros Hid.
  assert (forall v,
             processStyles (Some (<[k := f]> ps)) conditionIdMap v
             = processStyles (Some (delete k ps)) conditionIdMap v) as Hsame.
  { apply processStyles_agree. intros key Hkey. unfold expander.
    assert (k <> key) as Hne by congruence.
    by rewrite lookup_insert_ne, lookup_delete_ne. }
  split; [intros styles; apply Hsame|]. split.
  - intros v Hv. rewrite style_single.
    destruct (malformed_contribution (Some (<[k := f]> ps)) conditionIdMap
                k id v Hid Hv) as (Hw & Hp & Hg).
    by rewrite Hw, Hp, Hg.
  - intros child. rewrite style_single.
    unfold pushed, warned, written. cbn [fst snd isObject]. rewrite Hid.
    cbn [fold_left]. unfold processCondition. cbn [Cond.id Cond.value].
    by rewrite Hsame.
Qed.

(** [p] registered as a condition next to the shorthand [p] of the README. *)
Lemma condition_wins_over_shorthand_witness :
  style (Some (<["p" := Scenario.p]> ∅)) {[ "p" := "p1" ]} [("p", VNum 2)]
  = style (Some (delete "p" ∅)) {[ "p" := "p1" ]} [("p", VNum 2)]
  /\ style (Some (<["p" := Scenario.p]> ∅)) {[ "p" := "p1" ]} [("p", VNum 2)]
     = ([], malformed "p" (VNum 2))
  /\ style (Some (<["p" := Scenario.p]> ∅)) {[ "p" := "p1" ]}
       [("p", VObj [("color", VStr "red")])]
     = ([("color", VStr "var(--p1-1,red) var(--p1-0,revert-layer)")], []).
Proof.
  destruct (condition_wins_over_shorthand
              ∅ {[ "p" := "p1" ]} "p" "p1" Scenario.p) as (Hsame & Hdrop & Hfold);
    [reflexivity|].
  split; [apply Hsame|]. split; [by apply Hdrop|].
  rewrite Hfold. reflexivity.
Defined.

(** ** What a configuration registers *)

Lemma registerCondition_fold prefix cs st :
  fold_left (registerCondition prefix) cs st =
  {| idx := idx st + N.of_nat (length (issue prefix (idx st) cs));
     stylesheet := stylesheet st ++ map fragmentOf (issue prefix (idx st) cs);
     conditionIdMap := fold_left record (issue prefix (idx st) cs) (conditionIdMap st) |}.
Proof.
  revert st. induction cs as [|[nm raw] cs IH]; intros [i sheet m].
  - cbn. by rewrite N.add_0_r, app_nil_r.
  - cbn [fold_left issue registerCondition].
    destruct (String.eqb raw ""); [by rewrite IH|].
    unfold getId. cbn [idx stylesheet conditionIdMap].
    cbn [map]. unfold fragmentOf at 1. cbn [rawSelectorOrQuery variableId].
    destruct (Str.startsWith "@" raw); rewrite IH; unfold push;
      cbn [idx stylesheet conditionIdMap length map fold_left];
      rewrite <- app_assoc; f_equal; lia.
Qed.

Lemma registerConditions_spec options registry :
  registerConditions options registry =
  {| idx := N.of_nat (length (registrations options));
     stylesheet := map fragmentOf (registrations options);
     conditionIdMap := fold_left record (registrations options) registry |}.
Proof.
  unfold registerConditions, registrations.
  destruct (conditions options) as [cs|]; [|done].
  by rewrite registerCondition_fold.
Qed.

(** *** The ids issued by one call *)

Lemma issue_lookup prefix n cs (i : nat) c :
  issue prefix n cs !! i = Some c ->
  variableId c = prefix +:+ pretty (n + N.of_nat i + 1)%N
  /\ In (name c, rawSelectorOrQuery c) cs
  /\ rawSelectorOrQuery c <> "".
Proof.
  revert n i. induction cs as [|[nm raw] cs IH]; intros n i; [done|].
  cbn [issue]. destruct (String.eqb_spec raw "") as [->|Hraw].
  - intros H. destruct (IH _ _ H) as (? & ? & ?). cbn [In]. auto.
  - destruct i as [|i]; cbn.
    + intros [= <-]. cbn. rewrite N.add_0_r. auto.
    + intros H. destruct (IH _ _ H) as (-> & ? & ?).
      split; [f_equal; f_equal; lia | auto].
Qed.

Lemma issue_complete prefix n cs nm raw :
  In (nm, raw) cs -> raw <> "" ->
  exists c, In c (issue prefix n cs) /\ name c = nm /\ rawSelectorOrQuery c = raw.
Proof.
  revert n. induction cs as [|[nm1 raw1] cs IH]; intros n; [done|].
  cbn [In issue]. intros [[= -> ->]|Hin] Hraw.
  - destruct (String.eqb_spec raw "") as [|_]; [done|].
    eexists. split; [by left|done].
  - destruct (IH (if String.eqb raw1 "" then n else (n + 1)%N) Hin Hraw)
      as (c & Hc & Hn & Hr).
    exists c. destruct (String.eqb raw1 ""); cbn [In]; auto.
Qed.

Lemma string_app_nonempty (s t : string) : s <> "" -> s +:+ t <> "".
Proof. by destruct s. Qed.

Lemma cssVarPrefix_nonempty options : cssVarPrefix options <> "".
Proof.
  unfold cssVarPrefix. destruct (cssVariablePrefix options) as [s|]; [|done].
  by destruct (String.eqb_spec s "").
Qed.

(** Two positions of one call carry different ids. *)
Lemma issue_ids_distinct prefix n cs (i j : nat) ci cj :
  issue prefix n cs !! i = Some ci ->
  issue prefix n cs !! j = Some cj ->
  i <> j -> variableId ci <> variableId cj.
Proof.
  intros Hi Hj Hne Heq.
  apply issue_lookup in Hi as (Hi & _). apply issue_lookup in Hj as (Hj & _).
  rewrite Hi, Hj in Heq.
  apply (inj (String.app prefix)) in Heq. apply (inj pretty) in Heq. lia.
Qed.

(** *** The map after the registrations *)

Lemma fold_record_snoc cs c m :
  fold_left record (cs ++ [c]) m = <[name c := variableId c]> (fold_left record cs m).
Proof. by rewrite fold_left_app. Qed.

Lemma fold_record_other cs m nm :
  ~ In nm (map name cs) -> fold_left record cs m !! nm = m !! nm.
Proof.
  induction cs as [|c cs IH] using rev_ind; [done|].
  rewrite map_app, in_app_iff. cbn [map In]. intros Hnm.
  rewrite fold_record_snoc, lookup_insert_ne by tauto. apply IH. tauto.
Qed.

(** The last registration of a name decides its id. *)
Lemma fold_record_last cs1 c cs2 m :
  ~ In (name c) (map name cs2) ->
  fold_left record (cs1 ++ c :: cs2) m !! name c = Some (variableId c).
Proof.
  intros Hnm. rewrite fold_left_app. cbn [fold_left].
  rewrite fold_record_other by done. unfold record. apply lookup_insert_eq.
Qed.

Lemma fold_record_keeps cs m nm :
  is_Some (m !! nm) -> is_Some (fold_left record cs m !! nm).
Proof.
  revert m. induction cs as [|c cs IH]; intros m Hm; [done|].
  cbn [fold_left]. apply IH. unfold record.
  destruct (decide (name c = nm)) as [->|Hne].
  - rewrite lookup_insert_eq. eauto.
  - by rewrite lookup_insert_ne.
Qed.

(** Every name in a list has a last occurrence. *)
Lemma last_occurrence (cs : list Condition) nm :
  In nm (map name cs) ->
  exists cs1 c cs2, cs = cs1 ++ c :: cs2 /\ name c = nm /\ ~ In nm (map name cs2).
Proof.
  induction cs as [|c cs IH] using rev_ind; [done|].
  rewrite map_app, in_app_iff. cbn [map In].
  destruct (decide (name c = nm)) as [Heq|Hne].
  - intros _. exists cs, c, []. cbn [map In]. tauto.
  - intros [Hin|[?|[]]]; [|done].
    destruct (IH Hin) as (cs1 & c1 & cs2 & -> & Hn & Hnot).
    exists cs1, c1, (cs2 ++ [c]). split; [by rewrite <- app_assoc|].
    split; [done|]. rewrite map_app, in_app_iff. cbn [map In]. tauto.
Qed.


Lemma registrations_lookup options (i : nat) c :
  registrations options !! i = Some c ->
  variableId c = cssVarPrefix options +:+ pretty (N.of_nat (S i))
  /\ rawSelectorOrQuery c <> "".
Proof.
  unfold registrations. destruct (conditions options) as [cs|]; [|done].
  intros H. apply issue_lookup in H as (-> & _ & Hraw).
  split; [f_equal; f_equal; lia | done].
Qed.

Lemma registrations_ids_distinct options (i j : nat) ci cj :
  registrations options !! i = Some ci ->
  registrations options !! j = Some cj ->
  i <> j -> variableId ci <> variableId cj.
Proof.
  unfold registrations. destruct (conditions options) as [cs|]; [|done].
  apply issue_ids_distinct.
Qed.

Lemma registrations_complete options cs nm raw :
  conditions options = Some cs -> In (nm, raw) cs -> raw <> "" ->
  In nm (map name (registrations options)).
Proof.
  intros Hcs Hin Hraw. unfold registrations. rewrite Hcs.
  destruct (issue_complete (cssVarPrefix options) 0 cs nm raw Hin Hraw)
    as (c & Hc & <- & _).
  by apply in_map.
Qed.

Lemma variableId_nonempty options c :
  In c (registrations options) -> variableId c <> "".
Proof.
  intros Hin. apply list_elem_of_In, list_elem_of_lookup in Hin as [i Hi].
  apply registrations_lookup in Hi as (-> & _).
  apply string_app_nonempty, cssVarPrefix_nonempty.
Qed.

(** A name registered by a call is mapped, after the call, to the id of
    its last registration, at a position of the call's own sequence. *)
Lemma registered_id options registry nm :
  In nm (map name (registrations options)) ->
  exists (i : nat) c,
    registrations options !! i = Some c /\ name c = nm
    /\ snd (defineConfig options registry) !! nm = Some (variableId c).
Proof.
  intros Hin. destruct (last_occurrence _ _ Hin) as (cs1 & c & cs2 & Hcs & Hn & Hlast).
  exists (length cs1), c. split; [|split; [done|]].
  - rewrite Hcs. by apply list_lookup_middle.
  - unfold defineConfig. cbn [snd]. rewrite registerConditions_spec.
    cbn [conditionIdMap]. rewrite Hcs, <- Hn. apply fold_record_last.
    by rewrite Hn.
Qed.

(** C3 -- as stated (ids unique across every configuration of the
    process) the property fails: each call counts from its own [idx = 0],
    so two configurations with the default prefix both issue [p1]. *)
Lemma ids_shared_across_configurations :
  let registry1 := snd (defineConfig Scenario.hoverOnly ∅) in
  let registry2 := snd (defineConfig Scenario.focusOnly registry1) in
  registry2 !! "hover" = Some "p1" /\ registry2 !! "focus" = Some "p1".
Proof. split; reflexivity. Qed.

(** C3, amended -- within one configuration the ids are unique and
    sequential: two different names registered by the same [defineConfig]
    call are mapped to different ids, each the prefix followed by the
    position (from 1) of a registration of that call, whatever the map held
    before the call. *)
Theorem ids_distinct_within_configuration
    options registry cs nm1 raw1 nm2 raw2 :
  conditions options = Some cs ->
  In (nm1, raw1) cs -> raw1 <> "" ->
  In (nm2, raw2) cs -> raw2 <> "" ->
  nm1 <> nm2 ->
  exists (i1 i2 : nat),
    i1 <> i2
    /\ i1 < length (registrations options)
    /\ i2 < length (registrations options)
    /\ snd (defineConfig options registry) !! nm1
       = Some (cssVarPrefix options +:+ pretty (N.of_nat (S i1)))
    /\ snd (defineConfig options registry) !! nm2
       = Some (cssVarPrefix options +:+ pretty (N.of_nat (S i2)))
    /\ cssVarPrefix options +:+ pretty (N.of_nat (S i1))
       <> cssVarPrefix options +:+ pretty (N.of_nat (S i2)).
Proof.
  intros Hcs Hin1 Hraw1 Hin2 Hraw2 Hne.
  pose proof (registrations_complete _ _ _ _ Hcs Hin1 Hraw1) as H1.
  pose proof (registrations_complete _ _ _ _ Hcs Hin2 Hraw2) as H2.
  destruct (registered_id options registry nm1 H1) as (i1 & c1 & Hi1 & Hn1 & Hm1).
  destruct (registered_id options registry nm2 H2) as (i2 & c2 & Hi2 & Hn2 & Hm2).
  assert (i1 <> i2) as Hi by (intros ->; congruence).
  pose proof (registrations_ids_distinct _ _ _ _ _ Hi1 Hi2 Hi) as Hids.
  destruct (registrations_lookup _ _ _ Hi1) as (Hv1 & _).
  destruct (registrations_lookup _ _ _ Hi2) as (Hv2 & _).
  exists i1, i2. rewrite Hm1, Hm2, <- Hv1, <- Hv2.
  repeat split; try done.
  - by apply lookup_lt_Some in Hi1.
  - by apply lookup_lt_Some in Hi2.
Qed.

(** [hover] and [md] in one configuration, on top of a map that already
    holds [hover]. *)
Lemma ids_distinct_within_configuration_witness :
  exists (i1 i2 : nat),
    i1 <> i2
    /\ i1 < 2 /\ i2 < 2
    /\ snd (defineConfig Scenario.hoverAndMd {[ "hover" := "p7" ]}) !! "hover"
       = Some ("p" +:+ pretty (N.of_nat (S i1)))
    /\ snd (defineConfig Scenario.hoverAndMd {[ "hover" := "p7" ]}) !! "md"
       = Some ("p" +:+ pretty (N.of_nat (S i2)))
    /\ "p" +:+ pretty (N.of_nat (S i1)) <> "p" +:+ pretty (N.of_nat (S i2)).
Proof.
  apply (ids_distinct_within_configuration
           Scenario.hoverAndMd {[ "hover" := "p7" ]}
           [("hover", "&:hover"); ("md", "@media (min-width: 768px)")]
           "hover" "&:hover" "md" "@media (min-width: 768px)");
    first [ reflexivity | discriminate | (cbn; tauto) ].
Defined.

(** ** The map across configurations *)

Lemma defineConfig_keeps options registry nm :
  is_Some (registry !! nm) ->
  is_Some (snd (defineConfig options registry) !! nm).
Proof.
  unfold defineConfig. cbn [snd]. rewrite registerConditions_spec.
  apply fold_record_keeps.
Qed.

Lemma defineConfig_other options registry nm :
  ~ In nm (map name (registrations options)) ->
  snd (defineConfig options registry) !! nm = registry !! nm.
Proof.
  unfold defineConfig. cbn [snd]. rewrite registerConditions_spec.
  apply fold_record_other.
Qed.

(** A name registered by a call is a condition key afterwards. *)
Lemma registered_conditionId options registry nm :
  In nm (map name (registrations options)) ->
  exists id, conditionId (snd (defineConfig options registry)) nm = Some id.
Proof.
  intros Hin.
  destruct (registered_id options registry nm Hin) as (i & c & Hi & _ & Hm).
  exists (variableId c). unfold conditionId. rewrite Hm.
  assert (variableId c <> "") as Hne.
  { eapply variableId_nonempty, list_elem_of_In, list_elem_of_lookup_2, Hi. }
  by destruct (String.eqb_spec (variableId c) "").
Qed.

(** ... and stays one through any later call. *)
Lemma conditionId_survives options registry nm id :
  conditionId registry nm = Some id ->
  exists id', conditionId (snd (defineConfig options registry)) nm = Some id'.
Proof.
  intros Hid.
  destruct (in_dec string_dec nm (map name (registrations options))) as [Hin|Hout].
  - by apply registered_conditionId.
  - exists id. unfold conditionId in *. by rewrite defineConfig_other.
Qed.

(** C10 -- the name-to-id map is never cleared. After a second
    [defineConfig] call: every name the map held is still in it; the names
    registered by the first configuration are still read as condition keys
    by the style function of the second (an object under such a key is
    folded in as a condition, anything else is dropped with the diagnostic;
    the key is never passed through or expanded); and a name the second
    configuration registers again carries the id issued by the second
    configuration, whatever id it had. *)
Theorem registry_shared_across_configurations options1 options2 registry0 :
  let registry1 := snd (defineConfig options1 registry0) in
  let config2 := fst (defineConfig options2 registry1) in
  let registry2 := snd (defineConfig options2 registry1) in
  (forall nm, is_Some (registry1 !! nm) -> is_Some (registry2 !! nm))
  /\ (forall c,
        In c (registrations options1) ->
        exists id,
          conditionId registry2 (name c) = Some id
          /\ (forall v, isObject v = false ->
                cfg_style config2 registry2 [(name c, v)]
                = ([], malformed (name c) v))
          /\ (forall child,
                cfg_style config2 registry2 [(name c, VObj child)]
                = applyCondition id
                    (processStyles (properties options2) registry2 (VObj child))
                    ([], [])))
  /\ (forall cs1 c cs2,
        registrations options2 = cs1 ++ c :: cs2 ->
        ~ In (name c) (map name cs2) ->
        registry2 !! name c = Some (variableId c)).
Proof.
  intros registry1 config2 registry2. split; [|split].
  - intros nm. apply defineConfig_keeps.
  - intros c Hc.
    destruct (registered_conditionId options1 registry0 (name c)) as [id1 Hid1];
      [by apply in_map|].
    destruct (conditionId_survives options2 registry1 (name c) id1 Hid1)
      as [id2 Hid2].
    fold registry2 in Hid2. exists id2. split; [done|].
    unfold config2, defineConfig. cbn [fst cfg_style]. split.
    + intros v Hv. rewrite style_single.
      destruct (malformed_contribution (properties options2) registry2
                  (name c) id2 v Hid2 Hv) as (Hw & Hp & Hg).
      by rewrite Hw, Hp, Hg.
    + intros child. rewrite style_single.
      unfold pushed, warned, written. cbn [fst snd isObject]. by rewrite Hid2.
  - intros cs1 c cs2 Hcs Hlast. unfold registry2, defineConfig. cbn [snd].
    rewrite registerConditions_spec. cbn [conditionIdMap]. rewrite Hcs.
    by apply fold_record_last.
Qed.

(** [hover] registered by a first configuration, read by the style
    function of a second one that registers [focus]; and a second one that
    registers [focus], then [hover] again. *)
Lemma registry_shared_across_configurations_witness :
  is_Some (snd (defineConfig Scenario.focusOnly
                  (snd (defineConfig Scenario.hoverOnly ∅))) !! "hover")
  /\ cfg_style
       (fst (defineConfig Scenario.focusOnly (snd (defineConfig Scenario.hoverOnly ∅))))
       (snd (defineConfig Scenario.focusOnly (snd (defineConfig Scenario.hoverOnly ∅))))
       [("hover", VStr "red")]
     = ([], malformed "hover" (VStr "red"))
  /\ snd (defineConfig Scenario.hoverOnly ∅) !! "hover" = Some "p1"
  /\ snd (defineConfig Scenario.hoverAgain
            (snd (defineConfig Scenario.hoverOnly ∅))) !! "hover" = Some "p2".
Proof.
  destruct (registry_shared_across_configurations
              Scenario.hoverOnly Scenario.focusOnly ∅) as (Hkeep & Hread & _).
  destruct (registry_shared_across_configurations
              Scenario.hoverOnly Scenario.hoverAgain ∅) as (_ & _ & Hlast).
  split; [|split; [|split]].
  - apply Hkeep. by exists "p1".
  - destruct (Hread {| name := "hover"; rawSelectorOrQuery := "&:hover";
                       variableId := "p1" |}) as (id & _ & Hdrop & _);
      [by left|].
    by apply Hdrop.
  - reflexivity.
  - apply (Hlast [{| name := "focus"; rawSelectorOrQuery := "&:focus";
                     variableId := "p1" |}]
                 {| name := "hover"; rawSelectorOrQuery := ".group:hover &";
                    variableId := "p2" |} []); [reflexivity | cbn; tauto].
Defined.

(** ** The stylesheet *)

Lemma string_app_cons x (a b : string) : String x a +:+ b = String x (a +:+ b).
Proof. reflexivity. Qed.

Lemma string_app_assoc (a b c : string) : (a +:+ b) +:+ c = a +:+ (b +:+ c).
Proof.
  induction a as [|x a IH]; [done|]. by rewrite !string_app_cons, IH.
Qed.

Lemma prefix_char a c rest :
  String.prefix (String a "") (String c rest) = Ascii.eqb c a.
Proof.
  change (String.prefix (String a "") (String c rest))
    with (if ascii_dec a c then String.prefix "" rest else false).
  destruct (ascii_dec a c) as [->|Hne].
  - rewrite Ascii.eqb_refl. by destruct rest.
  - symmetry. apply Ascii.eqb_neq. congruence.
Qed.

Lemma startsWith_at raw :
  Str.startsWith "@" raw = true <-> exists rest, raw = String "@" rest.
Proof.
  unfold Str.startsWith. destruct raw as [|c rest].
  - split; [done|]. by intros [? ?].
  - rewrite prefix_char. destruct (Ascii.eqb_spec c "@") as [->|Hne].
    + split; [eauto|done].
    + split; [done|]. intros [? [= ? ?]]. congruence.
Qed.

(** The kind is [Block] exactly for a text that begins with [@]. *)
Lemma kindOf_Block raw :
  Sheet.kindOf raw = Sheet.Block <-> exists rest, raw = String "@" rest.
Proof.
  destruct raw as [|c rest]; cbn.
  - split; [done|]. by intros [? ?].
  - destruct (Ascii.eqb_spec c "@") as [->|Hne].
    + split; [eauto|done].
    + split; [done|]. intros [? [= ? ?]]. congruence.
Qed.

Lemma kindOf_startsWith raw :
  Sheet.kindOf raw = if Str.startsWith "@" raw then Sheet.Block else Sheet.Selector.
Proof.
  destruct (Str.startsWith "@" raw) eqn:H.
  - by apply kindOf_Block, startsWith_at.
  - destruct (Sheet.kindOf raw) eqn:Hk; [done|].
    apply kindOf_Block, startsWith_at in Hk. congruence.
Qed.

(** [replace('&', '*')] rewrites the leftmost [&] and nothing else. *)
Lemma replace_leftmost before after :
  Str.mem "&" before = false ->
  Str.replace "&" "*" (before +:+ String "&" after) = before +:+ String "*" after.
Proof.
  induction before as [|c before IH].
  - intros _. change ("" +:+ String "&" after) with (String "&" after).
    cbn [Str.replace]. by rewrite prefix_char, Ascii.eqb_refl.
  - rewrite !string_app_cons. cbn [Str.mem Str.replace].
    rewrite prefix_char, (Ascii.eqb_sym "&" c).
    destruct (Ascii.eqb c "&"); [done|]. cbn [orb]. intros H. by rewrite IH.
Qed.

Lemma replace_none raw : Str.mem "&" raw = false -> Str.replace "&" "*" raw = raw.
Proof.
  induction raw as [|c raw IH]; [done|]. cbn [Str.mem Str.replace].
  rewrite prefix_char, (Ascii.eqb_sym "&" c).
  destruct (Ascii.eqb c "&"); [done|]. cbn [orb]. intros H. by rewrite IH.
Qed.

Lemma universal_none raw : Str.count "&" raw = 0 -> Sheet.universal raw = raw.
Proof.
  induction raw as [|c raw IH]; [done|]. cbn [Str.count Sheet.universal].
  rewrite (Ascii.eqb_sym "&" c). destruct (Ascii.eqb c "&"); [done|].
  cbn. intros H. by rewrite IH.
Qed.

(** On a text with at most one [&], replacing the leftmost token is
    replacing the token. *)
Lemma replace_universal raw :
  Str.count "&" raw <= 1 -> Str.replace "&" "*" raw = Sheet.universal raw.
Proof.
  induction raw as [|c rest IH]; [done|].
  cbn [Str.count Str.replace Sheet.universal].
  rewrite prefix_char, (Ascii.eqb_sym "&" c).
  destruct (Ascii.eqb c "&").
  - intros H. rewrite universal_none by lia. reflexivity.
  - cbn. intros H. by rewrite IH.
Qed.

Lemma fragmentOf_fragment c :
  Str.startsWith "@" (rawSelectorOrQuery c) = true
  \/ Str.count "&" (rawSelectorOrQuery c) <= 1 ->
  fragmentOf c = Sheet.fragment (rawSelectorOrQuery c) (variableId c).
Proof.
  intros Hc. unfold fragmentOf, Sheet.fragment. rewrite kindOf_startsWith.
  destruct (Str.startsWith "@" (rawSelectorOrQuery c)).
  - unfold getBlockStylesheet, Sheet.defaultRule, Sheet.overrideRule.
    rewrite !string_app_assoc. reflexivity.
  - destruct Hc as [|Hc]; [done|].
    unfold getSelectorStylesheet, Sheet.defaultRule, Sheet.overrideRule.
    rewrite replace_universal, !string_app_assoc by done. reflexivity.
Qed.

Lemma registrations_texts options cs c :
  conditions options = Some cs -> In c (registrations options) ->
  In (name c, rawSelectorOrQuery c) cs.
Proof.
  intros Hcs Hin. unfold registrations in Hin. rewrite Hcs in Hin.
  apply list_elem_of_In, list_elem_of_lookup in Hin as [i Hi].
  by apply issue_lookup in Hi as (_ & ? & _).
Qed.

(** C6 -- the override selector keeps every [&] after the first. For the
    condition ["&:hover, &:focus"] the stylesheet line is the default rule
    followed by the override rule under ["*:hover, &:focus"]: the second
    [&] is not replaced by the universal selector, so the line is not the
    fragment of the design, whose override selector is
    ["*:hover, *:focus"]. *)
Theorem selector_second_ampersand_kept :
  cfg_stylesheet (fst (defineConfig Scenario.hoverOrFocus ∅))
  = "*{--p1-0:initial;--p1-1: ;} *:hover, &:focus{--p1-0: ;--p1-1:initial;}"
  /\ Sheet.fragment "&:hover, &:focus" "p1"
     = "*{--p1-0:initial;--p1-1: ;} *:hover, *:focus{--p1-0: ;--p1-1:initial;}"
  /\ cfg_stylesheet (fst (defineConfig Scenario.hoverOrFocus ∅))
     <> Sheet.fragment "&:hover, &:focus" "p1".
Proof. repeat split; try reflexivity. discriminate. Qed.

(** X16 -- away from that case the stylesheet is the one of the design.
    When every selector text of a configuration holds at most one [&], the
    stylesheet is one fragment per condition with a non-empty text, joined
    by line feeds in registration order: the default rule ([--id-0:initial],
    [--id-1] empty, on every element) followed by the override rule that
    flips both, inside the raw block text when the text begins with [@] and
    otherwise under the raw selector with its [&] turned into [*]. *)
Theorem stylesheet_fragments_single_token options registry cs :
  conditions options = Some cs ->
  Forall (fun e => Str.startsWith "@" (snd e) = true
                   \/ Str.count "&" (snd e) <= 1) cs ->
  cfg_stylesheet (fst (defineConfig options registry))
  = Str.join Str.newline
      (map (fun c => Sheet.fragment (rawSelectorOrQuery c) (variableId c))
         (registrations options)).
Proof.
  intros Hcs Hone. unfold defineConfig. cbn [fst cfg_stylesheet].
  rewrite registerConditions_spec. cbn [stylesheet]. f_equal.
  apply map_ext_in. intros c Hc. apply fragmentOf_fragment.
  rewrite List.Forall_forall in Hone.
  exact (Hone _ (registrations_texts options cs c Hcs Hc)).
Qed.

Lemma stylesheet_fragments_single_token_witness :
  cfg_stylesheet (fst (defineConfig Scenario.hoverAndMd {[ "hover" := "p7" ]}))
  = Str.join Str.newline
      [ Sheet.fragment "&:hover" "p1";
        Sheet.fragment "@media (min-width: 768px)" "p2" ].
Proof.
  apply (stylesheet_fragments_single_token Scenario.hoverAndMd
           {[ "hover" := "p7" ]}
           [("hover", "&:hover"); ("md", "@media (min-width: 768px)")]).
  - reflexivity.
  - repeat constructor; cbn; lia.
Defined.

Example stylesheet_of_readme :
  cfg_stylesheet
    (fst (defineConfig
            {| conditions :=
                 Some [("hover", "&:hover"); ("md", "@media (min-width: 768px)");
                       ("dark", ".dark &")];
               properties := None; cssVariablePrefix := None |} ∅))
  = "*{--p1-0:initial;--p1-1: ;} *:hover{--p1-0: ;--p1-1:initial;}"
    +:+ Str.newline +:+
    "*{--p2-0:initial;--p2-1: ;} @media (min-width: 768px){*{--p2-0: ;--p2-1:initial;}}"
    +:+ Str.newline +:+
    "*{--p3-0:initial;--p3-1: ;} .dark *{--p3-0: ;--p3-1:initial;}".
Proof. reflexivity. Qed.

(** ** Fallback chains of a node *)

Section ChainFacts.
Variable properties : option (gmap string Expander).
Variable conditionIdMap : gmap string string.

Lemma get_processCondition_chain k p g c ch :
  Obj.get k p = chainValue ch ->
  Obj.get k (fst (processCondition properties conditionIdMap (p, g) c))
  = chainValue (chainStep properties conditionIdMap k ch c).
Proof.
  intros Hp. rewrite get_processCondition. unfold chainStep.
  destruct (Obj.lookup k _); cbn [chainValue]; by rewrite Hp.
Qed.

(** Each pending condition that has the property wraps what was there. *)
Lemma get_processConditions_chain k cs p g ch :
  Obj.get k p = chainValue ch ->
  Obj.get k (fst (fold_left (processCondition properties conditionIdMap) cs (p, g)))
  = chainValue (chainAfter properties conditionIdMap k cs ch).
Proof.
  revert p g ch. induction cs as [|c cs IH]; intros p g ch Hp; [done|].
  cbn [fold_left chainAfter].
  pose proof (get_processCondition_chain k p g c ch Hp) as Hc.
  destruct (processCondition properties conditionIdMap (p, g) c) as [p' g'].
  by apply IH.
Qed.

Lemma get_style_chain k es :
  Obj.get k (fst (style properties conditionIdMap es))
  = chainValue (chainOf properties conditionIdMap k es).
Proof.
  unfold style, chainOf. rewrite processStyles_unfold.
  by apply get_processConditions_chain.
Qed.

Lemma chainAfter_app k cs1 cs2 ch :
  chainAfter properties conditionIdMap k (cs1 ++ cs2) ch
  = chainAfter properties conditionIdMap k cs2
      (chainAfter properties conditionIdMap k cs1 ch).
Proof. unfold chainAfter. apply fold_left_app. Qed.

Lemma chainAfter_untouched k cs ch :
  (forall c, In c cs ->
     Obj.lookup k (fst (processStyles properties conditionIdMap (Cond.value c)))
     = None) ->
  chainAfter properties conditionIdMap k cs ch = ch.
Proof.
  revert ch. induction cs as [|c cs IH]; intros ch H; [done|].
  cbn [chainAfter fold_left]. unfold chainStep at 2.
  rewrite (H c) by (by left). apply IH. intros c' Hc'. apply H. by right.
Qed.

End ChainFacts.



(** ** The scenarios, evaluated *)

(** C1 -- the end-to-end scenario. With [conditions = { hover: "&:hover" }]
    and [properties = { p: (v) => ({ padding: v*4 + "px" }) }] under the
    default prefix, [style({ p: 2, hover: { p: 4 } })] is the one entry
    [padding: "var(--p1-1,16px) var(--p1-0,8px)"]: the pair of the [hover]
    condition with "16px" as active and "8px" as inactive branch. *)
Theorem scenario_hover_padding :
  let config := fst (defineConfig Scenario.options ∅) in
  let registry := snd (defineConfig Scenario.options ∅) in
  registry !! "hover" = Some "p1"
  /\ cfg_style config registry [("p", VNum 2); ("hover", VObj [("p", VNum 4)])]
     = ([("padding", VStr "var(--p1-1,16px) var(--p1-0,8px)")], []).
Proof. split; reflexivity. Qed.

(** The inactive branch is the previous value when that value is truthy,
    and [revert-layer] for every other previous value, missing or not. *)
Lemma getPropertyValue_inactive_branch varId on off :
  getPropertyValue varId on off
  = "var(--" +:+ varId +:+ "-1," +:+ toString on +:+ ") var(--" +:+ varId
    +:+ "-0," +:+ (if truthy off then toString off else "revert-layer") +:+ ")".
Proof. unfold getPropertyValue, orRevertLayer. by destruct (truthy off). Qed.

(** C4 -- on a base value that is falsy the inactive branch is not the
    value the parent had: with [opacity: 0] written by the first loop,
    [hover: { opacity: 1 }] leaves [revert-layer] where [0] was. *)
Theorem falsy_base_value_replaced :
  let config := fst (defineConfig Scenario.hoverOnly ∅) in
  let registry := snd (defineConfig Scenario.hoverOnly ∅) in
  let node := [("opacity", VNum 0); ("hover", VObj [("opacity", VNum 1)])] in
  Obj.lookup "opacity" (baseStyles (properties Scenario.hoverOnly) registry node)
  = Some (VNum 0)
  /\ cfg_style config registry node
     = ([("opacity", VStr "var(--p1-1,1) var(--p1-0,revert-layer)")], [])
  /\ getPropertyValue "p1" (VNum 1) (VNum 0)
     <> "var(--p1-1,1) var(--p1-0,0)".
Proof. repeat split; try reflexivity. discriminate. Qed.

(** * Further properties of the configuration *)

(** X1 -- the stylesheet of a configuration does not depend on what the
    shared map holds when [defineConfig] is called: the counter starts at
    zero in every call, so the same options always give the same text. *)
Theorem stylesheet_independent_of_registry options registry1 registry2 :
  cfg_stylesheet (fst (defineConfig options registry1))
  = cfg_stylesheet (fst (defineConfig options registry2)).
Proof.
  unfold defineConfig. cbn [fst cfg_stylesheet].
  by rewrite !registerConditions_spec.
Qed.

Lemma issue_names prefix n cs nm :
  In nm (map name (issue prefix n cs)) -> In nm (map fst cs).
Proof.
  revert n. induction cs as [|[nm1 raw1] cs IH]; intros n; [done|].
  cbn [issue map fst In]. destruct (String.eqb raw1 "").
  - intros H. right. by apply (IH n).
  - cbn [map name In]. intros [->|H]; [by left|]. right. by apply (IH (n + 1)%N).
Qed.

Lemma issue_NoDup prefix n cs :
  List.NoDup (map fst cs) -> List.NoDup (map name (issue prefix n cs)).
Proof.
  revert n. induction cs as [|[nm raw] cs IH]; intros n; [constructor|].
  cbn [map fst issue]. intros Hnd. inversion Hnd as [|? ? Hnm Hcs]; subst.
  destruct (String.eqb raw ""); [by apply IH|].
  cbn [map name]. constructor; [|by apply IH].
  intros Hin. by apply issue_names in Hin.
Qed.

(** X2 -- sequential ids. When the condition names of a configuration
    are distinct, the name registered at position [i] (counting only the
    conditions with a non-empty text, from 0) is mapped by the shared map to
    the prefix followed by [i + 1], the very id its stylesheet line is
    written with, and [style] reads the name as a condition with that id. *)
Theorem sequential_ids options registry cs (i : nat) c :
  conditions options = Some cs ->
  List.NoDup (map fst cs) ->
  registrations options !! i = Some c ->
  variableId c = cssVarPrefix options +:+ pretty (N.of_nat (S i))
  /\ snd (defineConfig options registry) !! name c = Some (variableId c)
  /\ conditionId (snd (defineConfig options registry)) (name c)
     = Some (variableId c).
Proof.
  intros Hcs Hnd Hi.
  destruct (registrations_lookup _ _ _ Hi) as (Hid & _).
  assert (snd (defineConfig options registry) !! name c = Some (variableId c))
    as Hm.
  { unfold defineConfig. cbn [snd]. rewrite registerConditions_spec.
    cbn [conditionIdMap].
    assert (List.NoDup (map name (registrations options))) as Hnames.
    { unfold registrations. rewrite Hcs. by apply issue_NoDup. }
    rewrite <- (take_drop_middle _ _ _ Hi) in Hnames |- *.
    apply fold_record_last.
    rewrite map_app in Hnames. apply List.NoDup_app_remove_l in Hnames.
    cbn [map] in Hnames. by inversion Hnames. }
  split; [done|]. split; [done|].
  unfold conditionId. rewrite Hm.
  assert (variableId c <> "") as Hne.
  { rewrite Hid. apply string_app_nonempty, cssVarPrefix_nonempty. }
  by destruct (String.eqb_spec (variableId c) "").
Qed.

(** The second of [hover] and [md], on top of a map that already holds
    [md] under another id. *)
Lemma sequential_ids_witness :
  "p2" = "p" +:+ pretty (N.of_nat 2)
  /\ snd (defineConfig Scenario.hoverAndMd {[ "md" := "q9" ]}) !! "md" = Some "p2"
  /\ conditionId (snd (defineConfig Scenario.hoverAndMd {[ "md" := "q9" ]})) "md"
     = Some "p2".
Proof.
  apply (sequential_ids Scenario.hoverAndMd {[ "md" := "q9" ]}
           [("hover", "&:hover"); ("md", "@media (min-width: 768px)")] 1
           {| name := "md"; rawSelectorOrQuery := "@media (min-width: 768px)";
              variableId := "p2" |}); try reflexivity.
  repeat constructor; cbn; intros H; decompose [or] H; discriminate || done.
Defined.

(** X3 -- a condition whose text is empty is skipped altogether: it gets
    no stylesheet line, it is not entered in the shared map, and it does not
    use up a number, wherever it stands among the conditions. *)
Theorem empty_text_condition_skipped cs1 nm cs2 props prefix registry :
  let withEmpty :=
    {| conditions := Some (cs1 ++ (nm, "") :: cs2);
       properties := props; cssVariablePrefix := prefix |} in
  let without :=
    {| conditions := Some (cs1 ++ cs2);
       properties := props; cssVariablePrefix := prefix |} in
  cfg_stylesheet (fst (defineConfig withEmpty registry))
  = cfg_stylesheet (fst (defineConfig without registry))
  /\ snd (defineConfig withEmpty registry) = snd (defineConfig without registry).
Proof.
  intros withEmpty without.
  assert (registerConditions withEmpty registry
          = registerConditions without registry) as Heq.
  { unfold registerConditions, withEmpty, without. cbn [conditions].
    by rewrite !fold_left_app. }
  unfold defineConfig. cbn [fst snd cfg_stylesheet]. by rewrite Heq.
Qed.

(** X4 -- [replace('&', '*')] touches the leftmost [&] only. For a selector
    whose first [&] comes after [before], the override rule is written
    under [before], [*] and the rest of the text as it is, further [&]
    included; a selector without [&] is used unchanged. *)
Theorem selector_leftmost_ampersand before after id :
  Str.mem "&" before = false ->
  getSelectorStylesheet (before +:+ String "&" after) id
  = "*{--" +:+ id +:+ "-0:initial;--" +:+ id +:+ "-1: ;} "
    +:+ (before +:+ String "*" after)
    +:+ "{--" +:+ id +:+ "-0: ;--" +:+ id +:+ "-1:initial;}"
  /\ getSelectorStylesheet before id
     = "*{--" +:+ id +:+ "-0:initial;--" +:+ id +:+ "-1: ;} "
       +:+ before
       +:+ "{--" +:+ id +:+ "-0: ;--" +:+ id +:+ "-1:initial;}".
Proof.
  intros Hmem. unfold getSelectorStylesheet.
  by rewrite replace_leftmost, replace_none.
Qed.

(** [&:hover, &:focus]: the second [&] stays. *)
Lemma selector_leftmost_ampersand_witness :
  getSelectorStylesheet "&:hover, &:focus" "p1"
  = "*{--p1-0:initial;--p1-1: ;} *:hover, &:focus{--p1-0: ;--p1-1:initial;}"
  /\ getSelectorStylesheet "" "p1"
     = "*{--p1-0:initial;--p1-1: ;} {--p1-0: ;--p1-1:initial;}".
Proof.
  apply (selector_leftmost_ampersand "" ":hover, &:focus" "p1"). reflexivity.
Defined.

(** * Further properties of the resolver *)

Section NodeFacts.
Variable properties : option (gmap string Expander).
Variable conditionIdMap : gmap string string.

Local Abbreviation cid := (conditionId conditionIdMap).
Local Abbreviation style' := (style properties conditionIdMap).
Local Abbreviation process := (processStyles properties conditionIdMap).
Local Abbreviation baseOf := (baseStyles properties conditionIdMap).
Local Abbreviation pendingOf := (conditionsToProcess conditionIdMap).
Local Abbreviation step := (processCondition properties conditionIdMap).

Lemma conditionsToProcess_app es1 es2 :
  pendingOf (es1 ++ es2) = pendingOf es1 ++ pendingOf es2.
Proof. unfold conditionsToProcess. apply flat_map_app. Qed.

Lemma baseConsole_app es1 es2 :
  baseConsole conditionIdMap (es1 ++ es2)
  = baseConsole conditionIdMap es1 ++ baseConsole conditionIdMap es2.
Proof. unfold baseConsole. apply flat_map_app. Qed.

(** What a condition key holding an object contributes to the first loop. *)
Lemma pending_contribution c id child :
  cid c = Some id ->
  (forall p, written properties conditionIdMap p (c, VObj child) = p)
  /\ pushed conditionIdMap (c, VObj child)
     = [{| Cond.name := c; Cond.id := id; Cond.value := VObj child |}]
  /\ warned conditionIdMap (c, VObj child) = [].
Proof.
  intros Hid. unfold written, pushed, warned. cbn [fst snd isObject].
  by rewrite Hid.
Qed.

(** A condition key at the end of a node is folded into the result of the
    node before it. *)
Lemma style_snoc_condition es c id child :
  cid c = Some id ->
  style' (es ++ [(c, VObj child)]) = applyCondition id (style' child) (style' es).
Proof.
  intros Hid. destruct (pending_contribution c id child Hid) as (Hw & Hp & Hg).
  unfold style. rewrite (processStyles_unfold _ _ (es ++ _)).
  rewrite baseStyles_app, conditionsToProcess_app, baseConsole_app.
  unfold conditionsToProcess at 2, baseConsole at 2. cbn [flat_map fold_left].
  rewrite Hw, Hp, Hg, !app_nil_r, fold_left_app.
  rewrite <- processStyles_unfold. reflexivity.
Qed.

(** What a key that is neither a condition nor a shorthand contributes. *)
Lemma plain_contribution k v :
  conditionIdMap !! k = None -> expander properties k = None ->
  (forall p, written properties conditionIdMap p (k, v) = Obj.set k v p)
  /\ pushed conditionIdMap (k, v) = []
  /\ warned conditionIdMap (k, v) = [].
Proof.
  intros Hk Hx. unfold written, pushed, warned. cbn [fst snd].
  by rewrite (conditionId_unregistered _ _ Hk), Hx.
Qed.

(** A node without condition keys and without shorthand keys. *)
Lemma style_plain es :
  Forall (fun kv => conditionIdMap !! fst kv = None
                    /\ expander properties (fst kv) = None) es ->
  style' es = (Obj.assign [] es, []).
Proof.
  intros Hplain. unfold style. rewrite processStyles_unfold.
  assert (pendingOf es = [] /\ baseConsole conditionIdMap es = []
          /\ forall p, fold_left (written properties conditionIdMap) es p
                       = Obj.assign p es) as (-> & -> & Hbase).
  { unfold conditionsToProcess, baseConsole, Obj.assign.
    induction Hplain as [|[k v] es [Hk Hx] _ (IH1 & IH2 & IH3)]; [done|].
    cbn [fst] in Hk, Hx.
    destruct (plain_contribution k v Hk Hx) as (Hw & Hp & Hg).
    cbn [flat_map fold_left]. rewrite Hp, Hg, IH1, IH2.
    repeat split; try done. intros p. by rewrite Hw, IH3. }
  unfold baseStyles. by rewrite Hbase.
Qed.

End NodeFacts.

Lemma conditionsToProcess_cons conditionIdMap e es :
  conditionsToProcess conditionIdMap (e :: es)
  = pushed conditionIdMap e ++ conditionsToProcess conditionIdMap es.
Proof. reflexivity. Qed.

Lemma baseConsole_cons conditionIdMap e es :
  baseConsole conditionIdMap (e :: es)
  = warned conditionIdMap e ++ baseConsole conditionIdMap es.
Proof. reflexivity. Qed.

(** X6 -- a condition given an empty object changes nothing: the node
    resolves, console included, as the node without that key. *)
Theorem empty_condition_object_ignored properties conditionIdMap es1 es2 c id :
  conditionId conditionIdMap c = Some id ->
  style properties conditionIdMap (es1 ++ (c, VObj []) :: es2)
  = style properties conditionIdMap (es1 ++ es2).
Proof.
  intros Hid.
  destruct (pending_contribution properties conditionIdMap c id [] Hid)
    as (Hw & Hp & Hg).
  unfold style. rewrite !processStyles_unfold, !baseStyles_app.
  rewrite !conditionsToProcess_app, !baseConsole_app.
  rewrite conditionsToProcess_cons, baseConsole_cons, Hp, Hg.
  cbn [fold_left app]. rewrite Hw, !fold_left_app.
  cbn [fold_left]. f_equal.
  destruct (fold_left _ _ _) as [p g].
  unfold processCondition. cbn. by rewrite app_nil_r.
Qed.

Lemma empty_condition_object_ignored_witness :
  style None {[ "hover" := "p1" ]}
    ([("color", VStr "blue")] ++ ("hover", VObj []) :: [("margin", VNum 0)])
  = style None {[ "hover" := "p1" ]} ([("color", VStr "blue")] ++ [("margin", VNum 0)]).
Proof.
  apply (empty_condition_object_ignored None {[ "hover" := "p1" ]} _ _ "hover" "p1").
  reflexivity.
Defined.

(** ** Deferred conditions *)

Section Deferred.
Variable properties : option (gmap string Expander).
Variable conditionIdMap : gmap string string.

Lemma pending_true_written e p :
  pending conditionIdMap e = true -> written properties conditionIdMap p e = p.
Proof.
  unfold pending, written.
  by destruct (conditionId conditionIdMap (fst e)).
Qed.

Lemma pending_true_warned e :
  pending conditionIdMap e = true -> warned conditionIdMap e = [].
Proof.
  unfold pending, warned.
  destruct (conditionId conditionIdMap (fst e)); [|done]. by intros ->.
Qed.

Lemma pending_false_contribution e :
  pending conditionIdMap e = false -> pushed conditionIdMap e = [].
Proof.
  unfold pending, pushed.
  destruct (conditionId conditionIdMap (fst e)); [|done]. by intros ->.
Qed.

Lemma baseStyles_filter es p :
  fold_left (written properties conditionIdMap) es p
  = fold_left (written properties conditionIdMap)
      (List.filter (fun e => negb (pending conditionIdMap e)) es) p.
Proof.
  revert p. induction es as [|e es IH]; intros p; [done|].
  cbn [fold_left List.filter]. destruct (pending conditionIdMap e) eqn:He.
  - cbn [negb]. by rewrite (pending_true_written e p He).
  - cbn [negb fold_left]. apply IH.
Qed.

Lemma baseStyles_pending_only es p :
  fold_left (written properties conditionIdMap)
    (List.filter (pending conditionIdMap) es) p = p.
Proof.
  revert p. induction es as [|e es IH]; intros p; [done|].
  cbn [List.filter]. destruct (pending conditionIdMap e) eqn:He; [|done].
  cbn [fold_left]. by rewrite (pending_true_written e p He).
Qed.

Lemma pushed_filter es :
  flat_map (pushed conditionIdMap) es
  = flat_map (pushed conditionIdMap) (List.filter (pending conditionIdMap) es).
Proof.
  induction es as [|e es IH]; [done|].
  cbn [flat_map List.filter]. destruct (pending conditionIdMap e) eqn:He.
  - cbn [flat_map]. by rewrite IH.
  - by rewrite (pending_false_contribution e He).
Qed.

Lemma pushed_plain_only es :
  flat_map (pushed conditionIdMap)
    (List.filter (fun e => negb (pending conditionIdMap e)) es) = [].
Proof.
  induction es as [|e es IH]; [done|].
  cbn [List.filter]. destruct (pending conditionIdMap e) eqn:He; [done|].
  cbn [negb flat_map]. by rewrite (pending_false_contribution e He).
Qed.

Lemma warned_filter es :
  flat_map (warned conditionIdMap) es
  = flat_map (warned conditionIdMap)
      (List.filter (fun e => negb (pending conditionIdMap e)) es).
Proof.
  induction es as [|e es IH]; [done|].
  cbn [flat_map List.filter]. destruct (pending conditionIdMap e) eqn:He.
  - cbn [negb]. by rewrite (pending_true_warned e He).
  - cbn [negb flat_map]. by rewrite IH.
Qed.

Lemma warned_pending_only es :
  flat_map (warned conditionIdMap) (List.filter (pending conditionIdMap) es) = [].
Proof.
  induction es as [|e es IH]; [done|].
  cbn [List.filter]. destruct (pending conditionIdMap e) eqn:He; [|done].
  cbn [flat_map]. by rewrite (pending_true_warned e He).
Qed.

End Deferred.

(** X8 -- conditions are deferred. A node resolves exactly as the node in
    which every condition key holding an object has been moved behind all
    the other keys: where such a key stands among the properties does not
    matter, only the order of the conditions among themselves and of the
    other keys among themselves. *)
Theorem conditions_deferred properties conditionIdMap es :
  style properties conditionIdMap es
  = style properties conditionIdMap
      (List.filter (fun e => negb (pending conditionIdMap e)) es
       ++ List.filter (pending conditionIdMap) es).
Proof.
  unfold style. rewrite !processStyles_unfold.
  rewrite baseStyles_app, conditionsToProcess_app, baseConsole_app.
  unfold baseStyles, conditionsToProcess, baseConsole.
  rewrite baseStyles_pending_only, pushed_plain_only, warned_pending_only.
  rewrite <- baseStyles_filter, <- pushed_filter, <- warned_filter.
  by rewrite app_nil_r.
Qed.

Example hover_before_or_after_color :
  style None {[ "hover" := "p1" ]}
    [("hover", VObj [("color", VStr "red")]); ("color", VStr "blue")]
  = style None {[ "hover" := "p1" ]}
      [("color", VStr "blue"); ("hover", VObj [("color", VStr "red")])].
Proof. reflexivity. Qed.

(** ** The keys of a result *)

Lemma In_keys_lookup k (o : obj) : In k (Obj.keys o) <-> Obj.lookup k o <> None.
Proof.
  rewrite ObjFacts.lookup_None_keys.
  destruct (in_dec string_dec k (Obj.keys o)); tauto.
Qed.

Lemma In_keys_set k k' v (o : obj) :
  In k' (Obj.keys (Obj.set k v o)) <-> k' = k \/ In k' (Obj.keys o).
Proof.
  rewrite !In_keys_lookup, ObjFacts.lookup_set.
  destruct (String.eqb_spec k' k) as [->|Hne]; [|tauto].
  split; [auto|done].
Qed.

Lemma In_keys_wrapEntries id child p k :
  In k (Obj.keys (fold_left (wrapEntry id) child p))
  <-> In k (Obj.keys p) \/ In k (Obj.keys child).
Proof.
  revert p. induction child as [|[k1 v1] child IH]; intros p.
  - cbn. tauto.
  - cbn [fold_left]. rewrite IH. unfold wrapEntry. cbn [fst snd].
    rewrite In_keys_set. cbn [Obj.keys map fst In]. intuition congruence.
Qed.



(** ** Condition names stay out of the result *)

Section NoConditionKeys.
Variable properties : option (gmap string Expander).
Variable conditionIdMap : gmap string string.

(** No expander returns a property named like a condition. *)
Hypothesis expanders_plain :
  forall key f v k,
    expander properties key = Some f -> In k (Obj.keys (f v)) ->
    conditionId conditionIdMap k = None.

Local Abbreviation plainKeys := (plainKeys conditionIdMap).

Lemma plainKeys_set k v o :
  conditionId conditionIdMap k = None -> plainKeys o -> plainKeys (Obj.set k v o).
Proof.
  intros Hk Ho k' Hin. apply In_keys_set in Hin as [->|Hin]; auto.
Qed.

Lemma plainKeys_assign dst src :
  plainKeys src -> plainKeys dst -> plainKeys (Obj.assign dst src).
Proof.
  unfold Obj.assign. revert dst.
  induction src as [|[k v] src IH]; intros dst Hsrc Hdst; [done|].
  cbn [fold_left fst snd]. apply IH.
  - intros k' Hin. apply Hsrc. by right.
  - apply plainKeys_set; [|done]. apply Hsrc. by left.
Qed.

Lemma plainKeys_written p e :
  plainKeys p -> plainKeys (written properties conditionIdMap p e).
Proof.
  intros Hp. unfold written.
  destruct (conditionId conditionIdMap (fst e)) eqn:Hc; [done|].
  destruct (expander properties (fst e)) as [f|] eqn:Hf.
  - apply plainKeys_assign; [|done]. intros k. by apply (expanders_plain (fst e)).
  - by apply plainKeys_set.
Qed.

Lemma plainKeys_baseStyles es : plainKeys (baseStyles properties conditionIdMap es).
Proof.
  unfold baseStyles.
  assert (forall p, plainKeys p ->
            plainKeys (fold_left (written properties conditionIdMap) es p)) as H.
  { induction es as [|e es IH]; intros p Hp; [done|].
    cbn [fold_left]. apply IH. by apply plainKeys_written. }
  apply H. intros k [].
Qed.

Lemma plainKeys_processStyles v :
  plainKeys (fst (processStyles properties conditionIdMap v)).
Proof.
  induction v as [| |b|n|s|es IH] using value_ind; try (intros k []).
  rewrite processStyles_unfold.
  apply (pending_values conditionIdMap
           (fun v => plainKeys (fst (processStyles properties conditionIdMap v))))
    in IH.
  pose proof (plainKeys_baseStyles es) as Hbase. revert Hbase.
  generalize (baseStyles properties conditionIdMap es)
             (baseConsole conditionIdMap es).
  induction IH as [|c cs Hc _ IHcs]; intros p g Hp; [done|].
  cbn [fold_left]. unfold processCondition at 2, applyCondition.
  destruct (processStyles properties conditionIdMap (Cond.value c)) as [cm cg].
  apply IHcs. intros k Hin.
  apply In_keys_wrapEntries in Hin as [Hin|Hin]; auto.
Qed.

End NoConditionKeys.



(** ** The console *)

Section Console.
Variable properties : option (gmap string Expander).
Variable conditionIdMap : gmap string string.

Lemma processConditions_snd cs p g :
  snd (fold_left (processCondition properties conditionIdMap) cs (p, g))
  = g ++ flat_map
           (fun c => snd (processStyles properties conditionIdMap (Cond.value c)))
           cs.
Proof.
  revert p g. induction cs as [|c cs IH]; intros p g.
  - cbn. by rewrite app_nil_r.
  - cbn [fold_left flat_map]. unfold processCondition at 2, applyCondition.
    destruct (processStyles properties conditionIdMap (Cond.value c)) as [cm cg].
    rewrite IH. cbn [snd]. by rewrite <- app_assoc.
Qed.

(** The console of a node: the warnings of the first loop, then the
    consoles of the pending conditions in order. *)
Lemma console_unfold es :
  snd (processStyles properties conditionIdMap (VObj es))
  = baseConsole conditionIdMap es
    ++ flat_map
         (fun c => snd (processStyles properties conditionIdMap (Cond.value c)))
         (conditionsToProcess conditionIdMap es).
Proof. rewrite processStyles_unfold. apply processConditions_snd. Qed.

Lemma entry_console_empty_iff k v :
  (snd (processStyles properties conditionIdMap v) = []
   <-> wellShaped conditionIdMap v = true) ->
  (warned conditionIdMap (k, v) = []
   /\ flat_map
        (fun c => snd (processStyles properties conditionIdMap (Cond.value c)))
        (pushed conditionIdMap (k, v)) = [])
  <-> match conditionId conditionIdMap k with
      | Some _ => isObject v && wellShaped conditionIdMap v
      | None => true
      end = true.
Proof.
  intros Hv. unfold warned, pushed. cbn [fst snd].
  destruct (conditionId conditionIdMap k) as [id|]; [|done].
  destruct (isObject v) eqn:Hobj.
  - cbn [flat_map Cond.value andb]. rewrite app_nil_r, Hv. tauto.
  - cbn [andb]. unfold malformed. split; [by intros [[=] _] | done].
Qed.

Lemma console_empty_iff v :
  snd (processStyles properties conditionIdMap v) = []
  <-> wellShaped conditionIdMap v = true.
Proof.
  induction v as [| |b|n|s|es IH] using value_ind; try done.
  rewrite console_unfold. cbn [wellShaped].
  unfold baseConsole, conditionsToProcess.
  induction IH as [|[k v] es Hv _ IHes]; [done|].
  cbn [flat_map forallb fst snd] in *.
  rewrite flat_map_app, andb_true_iff, <- IHes.
  rewrite <- (entry_console_empty_iff k v Hv).
  rewrite <- app_assoc, !app_nil. tauto.
Qed.

End Console.


(** ** What [style] reads from the shared map *)

Section RegistryAgree.
Variable properties : option (gmap string Expander).
Variables registry1 registry2 : gmap string string.

Lemma nodeKeys_entry k (v : value) (es : obj) key :
  In (k, v) es -> (key = k \/ In key (nodeKeys v)) -> In key (nodeKeys (VObj es)).
Proof.
  intros Hin Hkey. cbn [nodeKeys]. apply in_flat_map.
  exists (k, v). split; [done|]. cbn [fst snd In]. intuition.
Qed.

(** [style] looks up the keys of the description and nothing else. *)
Lemma processStyles_registry_agree v :
  (forall k, In k (nodeKeys v) -> conditionId registry1 k = conditionId registry2 k) ->
  processStyles properties registry1 v = processStyles properties registry2 v.
Proof.
  induction v as [| |b|n|s|es IH] using value_ind; try reflexivity.
  intros Hkeys. rewrite !processStyles_unfold.
  assert (Forall (fun kv => conditionId registry1 (fst kv)
                            = conditionId registry2 (fst kv)) es) as Hhere.
  { apply List.Forall_forall. intros [k v] Hin. cbn [fst].
    apply Hkeys, (nodeKeys_entry k v); auto. }
  assert (Forall (fun kv => processStyles properties registry1 (snd kv)
                            = processStyles properties registry2 (snd kv)) es)
    as Hbelow.
  { rewrite List.Forall_forall in IH. apply List.Forall_forall.
    intros [k v] Hin. cbn [snd]. apply (IH (k, v) Hin).
    intros key Hkey. apply Hkeys, (nodeKeys_entry k v); auto. }
  assert (baseStyles properties registry1 es = baseStyles properties registry2 es)
    as ->.
  { unfold baseStyles. generalize (@nil (string * value)). clear -Hhere.
    induction Hhere as [|e es He _ IHes]; intros p; [done|].
    cbn [fold_left]. rewrite <- IHes. f_equal.
    unfold written. by rewrite He. }
  assert (baseConsole registry1 es = baseConsole registry2 es) as ->.
  { unfold baseConsole. clear -Hhere.
    induction Hhere as [|e es He _ IHes]; [done|].
    cbn [flat_map]. unfold warned at 1 3. by rewrite He, IHes. }
  assert (conditionsToProcess registry1 es = conditionsToProcess registry2 es)
    as Hconds.
  { unfold conditionsToProcess. clear -Hhere.
    induction Hhere as [|e es He _ IHes]; [done|].
    cbn [flat_map]. unfold pushed at 1 3. by rewrite He, IHes. }
  apply (pending_values registry2
           (fun v => processStyles properties registry1 v
                     = processStyles properties registry2 v)) in Hbelow.
  rewrite Hconds. clear Hconds.
  generalize (baseStyles properties registry2 es, baseConsole registry2 es).
  induction Hbelow as [|c cs Hc _ IHcs]; intros st; [done|].
  cbn [fold_left]. rewrite <- IHcs. f_equal.
  unfold processCondition. by rewrite Hc.
Qed.

End RegistryAgree.

(** X12 -- a later configuration leaves alone what it does not name. When
    none of the names registered by a [defineConfig] call occurs as a key
    of a description, at any nesting level, [style] resolves the description
    after the call exactly as before it. *)
Theorem unrelated_configuration_preserves_style properties options registry es :
  (forall k, In k (nodeKeys (VObj es)) ->
             ~ In k (map name (registrations options))) ->
  style properties (snd (defineConfig options registry)) es
  = style properties registry es.
Proof.
  intros Hkeys. unfold style. apply processStyles_registry_agree.
  intros k Hk. unfold conditionId.
  by rewrite defineConfig_other by (by apply Hkeys).
Qed.

(** A node that uses [hover], before and after a configuration that
    registers [focus]. *)
Lemma unrelated_configuration_preserves_style_witness :
  style None (snd (defineConfig Scenario.focusOnly {[ "hover" := "p1" ]}))
    [("color", VStr "blue"); ("hover", VObj [("color", VStr "red")])]
  = style None {[ "hover" := "p1" ]}
      [("color", VStr "blue"); ("hover", VObj [("color", VStr "red")])].
Proof.
  apply unrelated_configuration_preserves_style.
  intros k Hk Hin. vm_compute in Hk, Hin.
  decompose [or] Hk; decompose [or] Hin; subst; try discriminate; done.
Defined.

(** ** Nesting *)

Lemma set_over k v v0 : Obj.set k v [(k, v0)] = [(k, v)].
Proof. unfold Obj.set, Obj.has. cbn. by rewrite String.eqb_refl. Qed.

Lemma applyCondition_single id k on off :
  applyCondition id ([(k, on)], []) ([(k, off)], [])
  = ([(k, VStr (getPropertyValue id on off))], []).
Proof.
  cbn [applyCondition fold_left app]. unfold wrapEntry, Obj.get.
  cbn [fst snd Obj.lookup]. by rewrite String.eqb_refl, set_over.
Qed.

(** ** Edge cases of the configuration and of the first loop *)

Lemma issue_all_empty prefix n cs :
  Forall (fun e => snd e = "") cs -> issue prefix n cs = [].
Proof.
  induction 1 as [|[nm raw] cs Hraw _ IH]; [done|].
  cbn [snd] in Hraw. subst raw. cbn [issue]. exact IH.
Qed.

(** X14 -- a configuration without conditions, or whose conditions all
    have an empty text, produces the empty stylesheet and leaves the shared
    map exactly as it was. *)
Theorem no_conditions_no_effect options registry :
  match conditions options with
  | Some cs => Forall (fun e => snd e = "") cs
  | None => True
  end ->
  cfg_stylesheet (fst (defineConfig options registry)) = ""
  /\ snd (defineConfig options registry) = registry.
Proof.
  intros Hcs. unfold defineConfig. cbn [fst snd cfg_stylesheet].
  rewrite registerConditions_spec. cbn [stylesheet conditionIdMap].
  assert (registrations options = []) as ->; [|done].
  unfold registrations. destruct (conditions options) as [cs|]; [|done].
  by apply issue_all_empty.
Qed.

Lemma no_conditions_no_effect_witness :
  cfg_stylesheet
    (fst (defineConfig
            {| conditions := Some [("hover", ""); ("md", "")];
               properties := None; cssVariablePrefix := Some "x" |}
            {[ "hover" := "p1" ]})) = ""
  /\ snd (defineConfig
            {| conditions := Some [("hover", ""); ("md", "")];
               properties := None; cssVariablePrefix := Some "x" |}
            {[ "hover" := "p1" ]}) = {[ "hover" := "p1" ]}.
Proof.
  apply (no_conditions_no_effect
           {| conditions := Some [("hover", ""); ("md", "")];
              properties := None; cssVariablePrefix := Some "x" |}).
  repeat constructor.
Defined.

(** * The resolver with [Object.prototype] in view *)

(** ** Where the two readings agree *)

Section OwnProperties.
Variable nativeText : string -> string.
Variable properties : option (gmap string Expander).
Variable conditionIdMap : gmap string string.

Local Abbreviation lift := (fun o => {| Js.own := o; Js.prototype := Js.ObjectPrototype |}).

Lemma not_inherited_proto k :
  Js.inherited k = false -> String.eqb k "__proto__" = false.
Proof. destruct (String.eqb_spec k "__proto__") as [->|]; [discriminate|done]. Qed.

Lemma write_own k v o :
  Js.inherited k = false -> Js.write k v (lift o) = lift (Obj.set k v o).
Proof.
  intros Hk. unfold Js.write. by rewrite (not_inherited_proto k Hk).
Qed.

Lemma read_own k o :
  Js.inherited k = false -> Js.read k (lift o) = Js.Val (Obj.get k o).
Proof.
  intros Hk. unfold Js.read, Obj.get. cbn [Js.own Js.prototype].
  destruct (Obj.lookup k o); [done|].
  unfold Js.readObjectPrototype. by rewrite (not_inherited_proto k Hk), Hk.
Qed.

Lemma clean_cons kv (o : obj) :
  Js.clean (kv :: o) -> Js.inherited (fst kv) = false /\ Js.clean o.
Proof.
  intros H. split; [apply H; by left|]. intros k Hk. apply H. by right.
Qed.

Lemma copy_own o src :
  Js.clean src -> Js.copy (lift o) src = lift (Obj.assign o src).
Proof.
  unfold Js.copy, Obj.assign. revert o.
  induction src as [|kv src IH]; intros o Hsrc; [done|].
  apply clean_cons in Hsrc as [Hk Hsrc]. cbn [fold_left].
  rewrite write_own by done. by apply IH.
Qed.

Lemma wrapEntries_own id child p :
  Js.clean child ->
  fold_left (Js.wrapEntry nativeText id) child (lift p)
  = lift (fold_left (wrapEntry id) child p).
Proof.
  revert p. induction child as [|kv child IH]; intros p Hc; [done|].
  apply clean_cons in Hc as [Hk Hc]. cbn [fold_left].
  unfold Js.wrapEntry at 2. rewrite read_own, write_own by done.
  by apply IH.
Qed.

Lemma applyCondition_own id q h p g :
  Js.clean q ->
  Js.applyCondition nativeText id (Js.Returned (lift q) h) (Js.Returned (lift p) g)
  = Js.Returned (lift (fst (applyCondition id (q, h) (p, g))))
      (snd (applyCondition id (q, h) (p, g))).
Proof.
  intros Hq. cbn [Js.applyCondition applyCondition fst snd].
  unfold Js.enumerate. cbn [Js.own Js.prototype].
  by rewrite app_nil_r, wrapEntries_own.
Qed.

(** *** Clean objects stay clean *)

Lemma clean_set k v o :
  Js.inherited k = false -> Js.clean o -> Js.clean (Obj.set k v o).
Proof.
  intros Hk Ho k' Hin. apply In_keys_set in Hin as [->|Hin]; auto.
Qed.

Lemma clean_assign dst src :
  Js.clean src -> Js.clean dst -> Js.clean (Obj.assign dst src).
Proof.
  unfold Obj.assign. revert dst.
  induction src as [|kv src IH]; intros dst Hsrc Hdst; [done|].
  apply clean_cons in Hsrc as [Hk Hsrc]. cbn [fold_left].
  apply IH; [done|]. by apply clean_set.
Qed.

Lemma clean_wrapEntries id child p :
  Js.clean child -> Js.clean p -> Js.clean (fold_left (wrapEntry id) child p).
Proof.
  intros Hc Hp k Hin. apply In_keys_wrapEntries in Hin as [Hin|Hin]; auto.
Qed.

(** *** The first loop *)

(** An entry the first loop handles without meeting [Object.prototype]. *)
Local Abbreviation safeEntry :=
  (fun e : string * value =>
     conditionId conditionIdMap (fst e) = None -> Js.safeKey properties (fst e)).

Lemma scanKey_own p cs g e :
  safeEntry e ->
  Js.scanKey properties conditionIdMap (Js.Scanning (lift p) cs g) e
  = Js.Scanning (lift (written properties conditionIdMap p e))
      (cs ++ pushed conditionIdMap e) (g ++ warned conditionIdMap e).
Proof.
  destruct e as [key v]. cbn [fst]. intros Hsafe.
  unfold Js.scanKey, written, pushed, warned. cbn [fst snd].
  destruct (conditionId conditionIdMap key) as [id|].
  - destruct (isObject v); by rewrite app_nil_r.
  - specialize (Hsafe eq_refl). unfold Js.safeKey in Hsafe.
    unfold Js.find, expander in *. rewrite !app_nil_r.
    destruct properties as [ps|].
    + destruct (ps !! key) as [fn|].
      * by rewrite copy_own.
      * by rewrite Hsafe, write_own.
    + by rewrite write_own.
Qed.

Lemma clean_written p e :
  safeEntry e -> Js.clean p -> Js.clean (written properties conditionIdMap p e).
Proof.
  intros Hsafe Hp. unfold written.
  destruct (conditionId conditionIdMap (fst e)) eqn:Hc; [done|].
  specialize (Hsafe Hc). unfold Js.safeKey in Hsafe.
  destruct (expander properties (fst e)) as [fn|].
  - by apply clean_assign.
  - by apply clean_set.
Qed.

Lemma scanKeys_own es p cs g :
  Forall safeEntry es ->
  fold_left (Js.scanKey properties conditionIdMap) es (Js.Scanning (lift p) cs g)
  = Js.Scanning (lift (fold_left (written properties conditionIdMap) es p))
      (cs ++ flat_map (pushed conditionIdMap) es)
      (g ++ flat_map (warned conditionIdMap) es).
Proof.
  intros Hes. revert p cs g.
  induction Hes as [|e es He _ IH]; intros p cs g.
  - cbn. by rewrite !app_nil_r.
  - cbn [fold_left flat_map]. rewrite scanKey_own by done.
    by rewrite IH, <- !app_assoc.
Qed.

Lemma clean_baseStyles es :
  Forall safeEntry es -> Js.clean (baseStyles properties conditionIdMap es).
Proof.
  intros Hes. unfold baseStyles.
  assert (forall p, Js.clean p ->
            Js.clean (fold_left (written properties conditionIdMap) es p)) as H.
  { induction Hes as [|e es He _ IH]; intros p Hp; [done|].
    cbn [fold_left]. apply IH. by apply clean_written. }
  apply H. intros k [].
Qed.

(** *** The second loop *)

(** What is known of a nested description: its call returns the object
    of the own-property reading, and that object is clean. *)
Local Abbreviation agrees :=
  (fun v : value =>
     Js.processStyles nativeText properties conditionIdMap v
     = Js.Returned (lift (fst (processStyles properties conditionIdMap v)))
         (snd (processStyles properties conditionIdMap v))
     /\ Js.clean (fst (processStyles properties conditionIdMap v))).

Lemma forEach_own (l : obj) p g :
  Forall (fun kv => conditionId conditionIdMap (fst kv) <> None -> agrees (snd kv)) l ->
  Js.clean p ->
  (fix forEach (l : obj) (st : Js.outcome) :=
     match l with
     | [] => st
     | (key, value) :: l' =>
         match conditionId conditionIdMap key, value with
         | Some id, VObj _ =>
             forEach l'
               (Js.applyCondition nativeText id
                  (Js.processStyles nativeText properties conditionIdMap value) st)
         | _, _ => forEach l' st
         end
     end) l (Js.Returned (lift p) g)
  = Js.Returned
      (lift (fst (fold_left (processCondition properties conditionIdMap)
                    (flat_map (pushed conditionIdMap) l) (p, g))))
      (snd (fold_left (processCondition properties conditionIdMap)
              (flat_map (pushed conditionIdMap) l) (p, g)))
  /\ Js.clean (fst (fold_left (processCondition properties conditionIdMap)
                      (flat_map (pushed conditionIdMap) l) (p, g))).
Proof.
  intros Hl. revert p g.
  induction Hl as [|[key v] l Hv _ IH]; intros p g Hp; [done|].
  change (flat_map (pushed conditionIdMap) ((key, v) :: l))
    with (pushed conditionIdMap (key, v) ++ flat_map (pushed conditionIdMap) l).
  rewrite fold_left_app. cbn [fst snd] in Hv.
  set (rest := flat_map (pushed conditionIdMap) l) in *.
  unfold pushed. cbn [fst snd].
  cbn -[Js.applyCondition Js.processStyles processCondition fold_left
        conditionId processStyles].
  destruct (conditionId conditionIdMap key) as [id|] eqn:Hid;
    [|cbn [fold_left]; by apply IH].
  destruct v as [| |b|n|s|child]; try (cbn [isObject fold_left]; by apply IH).
  destruct Hv as [Hjs Hclean]; [done|].
  cbn [isObject fold_left]. unfold processCondition at 2 4 6.
  cbn [Cond.id Cond.value]. rewrite Hjs.
  destruct (processStyles properties conditionIdMap (VObj child)) as [q h].
  cbn [fst snd] in *. rewrite applyCondition_own by done.
  cbn [applyCondition fst snd]. apply IH. by apply clean_wrapEntries.
Qed.

(** *** Whole descriptions *)

Lemma writtenKeys_entry key v (es : obj) k :
  In (key, v) es ->
  match conditionId conditionIdMap key with
  | Some _ => In k (Js.writtenKeys conditionIdMap v)
  | None => k = key
  end ->
  In k (Js.writtenKeys conditionIdMap (VObj es)).
Proof.
  intros Hin Hk. cbn [Js.writtenKeys]. apply in_flat_map.
  exists (key, v). split; [done|]. cbn [fst snd].
  destruct (conditionId conditionIdMap key); [done|]. by left.
Qed.

Lemma processStyles_own v :
  Js.safe properties conditionIdMap v -> agrees v.
Proof.
  induction v as [| |b|n|s|es IH] using value_ind;
    try (intros _; split; [reflexivity | intros k []]).
  intros Hsafe.
  assert (Forall safeEntry es) as Hentries.
  { apply List.Forall_forall. intros [key v] Hin Hkey. cbn [fst] in *.
    apply Hsafe, (writtenKeys_entry key v); [done|]. by rewrite Hkey. }
  assert (Forall (fun kv => conditionId conditionIdMap (fst kv) <> None
                            -> agrees (snd kv)) es) as Hnested.
  { rewrite List.Forall_forall in IH. apply List.Forall_forall.
    intros [key v] Hin Hkey. cbn [fst snd] in *. apply (IH (key, v) Hin).
    intros k Hk. apply Hsafe, (writtenKeys_entry key v); [done|].
    by destruct (conditionId conditionIdMap key). }
  pose proof (forEach_own es (baseStyles properties conditionIdMap es)
                (baseConsole conditionIdMap es) Hnested
                (clean_baseStyles es Hentries)) as [Hjs Hclean].
  rewrite processStyles_unfold. split; [|exact Hclean].
  cbn [Js.processStyles]. unfold Js.scanKeys, Js.empty.
  rewrite scanKeys_own by done. exact Hjs.
Qed.

End OwnProperties.

(** On a description whose written keys stay away from [Object.prototype],
    the source returns the object of the own-property reading, with
    [Object.prototype] as its prototype, and writes the same console. *)
Lemma style_reads_own_properties nativeText properties conditionIdMap es :
  Js.safe properties conditionIdMap (VObj es) ->
  Js.style nativeText properties conditionIdMap es
  = Js.Returned
      {| Js.own := fst (style properties conditionIdMap es);
         Js.prototype := Js.ObjectPrototype |}
      (snd (style properties conditionIdMap es)).
Proof.
  intros Hsafe.
  by destruct (processStyles_own nativeText properties conditionIdMap _ Hsafe).
Qed.

(** ** Keys that are neither conditions nor shorthands *)

(** C7 -- as stated (every key that is neither a registered condition nor
    a registered shorthand is passed through) the property fails on the
    names of the members of [Object.prototype]. With a [properties] table
    configured, [constructor] is looked up as the inherited function
    [Object] and called as an expander, so [{ constructor: 1 }] resolves to
    the empty map, and [valueOf] throws; with or without the table,
    [__proto__] is never stored. *)
Lemma inherited_names_not_passed_through :
  (snd (defineConfig Scenario.options ∅)) !! "constructor" = None
  /\ expander (properties Scenario.options) "constructor" = None
  /\ Js.style Js.v8Text (properties Scenario.options)
       (snd (defineConfig Scenario.options ∅)) [("constructor", VNum 1)]
     = Js.Returned Js.empty []
  /\ Js.style Js.v8Text (properties Scenario.options)
       (snd (defineConfig Scenario.options ∅)) [("valueOf", VNum 1)]
     = Js.Thrown []
  /\ Js.style Js.v8Text None ∅ [("__proto__", VNum 1)]
     = Js.Returned Js.empty [].
Proof. repeat split; reflexivity. Qed.

(** C7, amended -- passthrough law. A key that is neither a registered
    condition name nor a registered shorthand property, that is not
    [__proto__] and that, when a [properties] table is configured, is not
    the name of a member of [Object.prototype], resolves alone in a node
    to the node itself, whatever its value (an object included): the call
    returns, the object returned holds that one property and inherits from
    [Object.prototype], and nothing is written to the console. *)
Theorem passthrough_plain_key nativeText properties conditionIdMap k v :
  conditionIdMap !! k = None ->
  expander properties k = None ->
  k <> "__proto__" ->
  (properties <> None -> Js.inherited k = false) ->
  Js.style nativeText properties conditionIdMap [(k, v)]
  = Js.Returned {| Js.own := [(k, v)]; Js.prototype := Js.ObjectPrototype |} [].
Proof.
  intros Hreg Hexp Hproto Hinh.
  assert (Js.find properties k = Js.Absent) as Hfind.
  { unfold Js.find, expander in *. destruct properties as [ps|]; [|done].
    rewrite Hexp, Hinh; done. }
  assert (Js.write k v Js.empty
          = {| Js.own := [(k, v)]; Js.prototype := Js.ObjectPrototype |}) as Hw.
  { unfold Js.write. apply String.eqb_neq in Hproto. rewrite Hproto.
    cbn [andb Js.own Js.prototype Js.empty]. by rewrite ObjFacts.set_nil. }
  unfold Js.style. cbn [Js.processStyles]. unfold Js.scanKeys.
  cbn [fold_left Js.scanKey].
  by rewrite (conditionId_unregistered _ _ Hreg), Hfind, Hw.
Qed.

(** The typo [hoverr], given an object, next to a registered [hover]. *)
Lemma passthrough_plain_key_witness :
  Js.style Js.v8Text (properties Scenario.options) {[ "hover" := "p1" ]}
    [("hoverr", VObj [("color", VStr "red")])]
  = Js.Returned
      {| Js.own := [("hoverr", VObj [("color", VStr "red")])];
         Js.prototype := Js.ObjectPrototype |} [].
Proof.
  apply passthrough_plain_key; try reflexivity; discriminate.
Defined.

(** ** Nodes of plain keys *)

Lemma writtenKeys_plain conditionIdMap (es : obj) key :
  Forall (fun kv => conditionIdMap !! fst kv = None) es ->
  In key (Js.writtenKeys conditionIdMap (VObj es)) -> In key (Obj.keys es).
Proof.
  cbn [Js.writtenKeys]. induction 1 as [|[k v] es Hk _ IH]; [done|].
  cbn [flat_map fst snd Obj.keys map] in *.
  rewrite (conditionId_unregistered _ _ Hk). cbn [app In]. tauto.
Qed.

(** X5 -- a node none of whose keys is a registered condition, a shorthand
    property or the name of a member of [Object.prototype] is returned as
    it is: the call returns an object with the same properties in the same
    order, and nothing is written to the console. *)
Theorem plain_node_unchanged nativeText properties conditionIdMap es :
  Forall (fun kv => conditionIdMap !! fst kv = None
                    /\ expander properties (fst kv) = None
                    /\ Js.inherited (fst kv) = false) es ->
  Obj.wf es = true ->
  Js.style nativeText properties conditionIdMap es
  = Js.Returned {| Js.own := es; Js.prototype := Js.ObjectPrototype |} [].
Proof.
  intros Hplain Hwf. rewrite style_reads_own_properties.
  - rewrite style_plain
      by (eapply Forall_impl; [exact Hplain|]; by intros ? (? & ? & ?)).
    cbn [fst snd]. by rewrite ObjFacts.assign_wf.
  - intros key Hkey.
    apply writtenKeys_plain in Hkey;
      [|eapply Forall_impl; [exact Hplain|]; by intros ? (? & ? & ?)].
    unfold Obj.keys in Hkey. apply in_map_iff in Hkey as ([k v] & <- & Hin).
    rewrite List.Forall_forall in Hplain.
    destruct (Hplain _ Hin) as (_ & Hx & Hinh). cbn [fst] in *.
    unfold Js.safeKey. by rewrite Hx.
Qed.

Lemma plain_node_unchanged_witness :
  Js.style Js.v8Text (properties Scenario.options) {[ "hover" := "p1" ]}
    [("0", VNum 1); ("color", VStr "red"); ("margin", VNum 0)]
  = Js.Returned
      {| Js.own := [("0", VNum 1); ("color", VStr "red"); ("margin", VNum 0)];
         Js.prototype := Js.ObjectPrototype |} [].
Proof.
  apply plain_node_unchanged; [|reflexivity].
  repeat constructor.
Defined.

(** ** A condition at the end of a node *)

Lemma style_snoc_rewrite properties conditionIdMap es c id child k :
  conditionId conditionIdMap c = Some id ->
  Obj.get k (fst (style properties conditionIdMap (es ++ [(c, VObj child)])))
  = match Obj.lookup k (fst (style properties conditionIdMap child)) with
    | Some on =>
        VStr (getPropertyValue id on
                (Obj.get k (fst (style properties conditionIdMap es))))
    | None => Obj.get k (fst (style properties conditionIdMap es))
    end
  /\ snd (style properties conditionIdMap (es ++ [(c, VObj child)]))
     = snd (style properties conditionIdMap es)
       ++ snd (style properties conditionIdMap child).
Proof.
  intros Hid. rewrite style_snoc_condition with (id := id) by done.
  pose proof (NoDup_processStyles properties conditionIdMap (VObj child)) as Hnd.
  unfold style in *.
  destruct (processStyles properties conditionIdMap (VObj child)) as [cm cg].
  destruct (processStyles properties conditionIdMap (VObj es)) as [p g].
  cbn [applyCondition fst snd] in *. split; [|done].
  unfold Obj.get at 1. rewrite lookup_wrapEntries by done.
  by destruct (Obj.lookup k cm).
Qed.

Lemma safe_snoc_condition properties conditionIdMap es c id child :
  conditionId conditionIdMap c = Some id ->
  Js.safe properties conditionIdMap (VObj (es ++ [(c, VObj child)])) ->
  Js.safe properties conditionIdMap (VObj es)
  /\ Js.safe properties conditionIdMap (VObj child).
Proof.
  intros Hid Hsafe.
  split; intros key Hkey; apply Hsafe; cbn [Js.writtenKeys] in *;
    rewrite flat_map_app, in_app_iff; [by left|right].
  cbn [flat_map fst snd]. rewrite Hid, app_nil_r. exact Hkey.
Qed.



(** ** Nesting *)

Lemma style_nested properties conditionIdMap k outer idOuter inner idInner v0 v1 v2 :
  conditionIdMap !! k = None ->
  expander properties k = None ->
  conditionId conditionIdMap outer = Some idOuter ->
  conditionId conditionIdMap inner = Some idInner ->
  style properties conditionIdMap
    [(k, v0); (outer, VObj [(k, v1); (inner, VObj [(k, v2)])])]
  = ([(k, VStr (getPropertyValue idOuter
                  (VStr (getPropertyValue idInner v2 v1)) v0))], []).
Proof.
  intros Hk Hx Houter Hinner.
  assert (forall v, style properties conditionIdMap [(k, v)] = ([(k, v)], []))
    as Hplain.
  { intros v. rewrite style_plain
      by (constructor; [cbn [fst]; split; assumption | constructor]).
    unfold Obj.assign. cbn [fold_left fst snd]. by rewrite ObjFacts.set_nil. }
  change [(k, v0); (outer, VObj [(k, v1); (inner, VObj [(k, v2)])])]
    with ([(k, v0)] ++ [(outer, VObj ([(k, v1)] ++ [(inner, VObj [(k, v2)])]))]).
  rewrite (style_snoc_condition _ _ _ outer idOuter) by done.
  rewrite (style_snoc_condition _ _ _ inner idInner) by done.
  by rewrite !Hplain, !applyCondition_single.
Qed.


